(** * truepack: the type-model extraction of package parse (parse/getast.go)

    A shallow embedding of the functions of parse/getast.go: GetAST,
    GetElems, GetTypeSpecs, GenElem, parseFieldList, embedded and
    parseExpr, with the properties the specification states about them.

    The functions build a tree of gen.Elem values out of a go/ast syntax
    tree.  Every composite literal prefixed by & in the source allocates
    a fresh object; the model threads the next free address through the
    calls, so that two elements are the same pointer exactly when their
    addresses are equal.  An unchecked type assertion that fails is a
    run-time panic; the model records it as the outcome [Panicked].
    The diagnostic prints (fmt.Printf) are left out: they do not
    influence any returned value.

    The tag lookup of parseFieldList goes through strings.Trim and
    reflect.StructTag.Get of the Go standard library.  The functions of
    getast.go take the lookup as a parameter; the two library functions
    are written out as well, for the statements that set the value the
    code finds against the literal a field carries.

    The second part is the tagged union of msgp/number.go, with the
    integers as Z and their wrap-around written out, and with the
    floats and the functions of packages msgp, math and strconv as
    parameters. *)

From Stdlib Require Import String Ascii List Arith Bool Lia ZArith.
From Stdlib.Strings Require Import Byte.
Import ListNotations.
Open Scope string_scope.
Open Scope list_scope.

(** ** The syntax tree (the part of go/ast the code looks at) *)

(** ast.Expr with the node kinds that can stand where a type is expected.
    A pointer to an ast.FieldList may be nil, hence the option.  The
    induction principle that reaches the types of the fields is
    [Expr_nested_ind] below. *)
Unset Elimination Schemes.
Inductive Expr : Type :=
| Ident (Name : string)
| BasicLit (Value : string)
| Ellipsis (Elt : option Expr)
| ParenExpr (X : Expr)
| SelectorExpr (X : Expr) (Sel : string)
| StarExpr (X : Expr)
| ArrayType (Len : option Expr) (Elt : Expr)
| StructType (Fields : option (list Field))
| FuncType (Params Results : option (list Field))
| InterfaceType (Methods : option (list Field))
| MapType (Key Value : Expr)
| ChanType (Value : Expr)
with Field : Type :=
| mkField (Names : list string) (Type_ : Expr) (Tag : option string).
Set Elimination Schemes.

Definition Names (f : Field) : list string :=
  match f with mkField names _ _ => names end.
Definition Type_ (f : Field) : Expr :=
  match f with mkField _ ty _ => ty end.
Definition Tag (f : Field) : option string :=
  match f with mkField _ _ tag => tag end.

(** ast.Spec, ast.Decl and ast.File, as far as GetTypeSpecs reads them. *)
Record TypeSpec : Type := mkTypeSpec { SpecName : string; SpecType : Expr }.

Inductive Spec : Type :=
| ImportSpec (Path : string)
| ValueSpec (ValueNames : list string)
| ATypeSpec (ts : TypeSpec).

Inductive Decl : Type :=
| BadDecl
| GenDecl (Specs : list Spec)
| FuncDecl (Name : string).

Record File : Type := mkFile { Decls : list Decl }.

(** The error values GetAST can return: one made by the parser, or one
    made by errors.New. *)
Inductive error : Type :=
| parserError (msg : string)
| errorsNew (msg : string).

Inductive ParseResult : Type :=
| parsed (f : File)
| failed (f : option File) (err : error).

(** ** The generator elements *)

(** Modelled from the spec: the gen.Base constants of package gen, which
    is imported by the source and not part of it.  One constant per base
    kind of the data model, and IDENT for a named type left to the
    generator. *)
Inductive Base : Type :=
| Float32 | Float64 | Complex64 | Complex128
| Int | Int8 | Int16 | Int32 | Int64
| Uint | Uint8 | Uint16 | Uint32 | Uint64
| String_ | Bool | Bytes | MapStrStr | MapStrIntf | IDENT.

Definition addr := nat.

(** Modelled from the spec: the gen.Elem interface of package gen and the
    four pointer types the source stores in it (pointers to
    gen.BaseElem, gen.Slice, gen.Ptr and gen.Struct), with the fields
    the source sets.  [nilElem] is the nil interface value; every other node
    carries the address of the object it points to. *)
Unset Elimination Schemes.
Inductive Elem : Type :=
| nilElem
| BaseElem (p : addr) (Value : Base) (Ident_ : string)
| Slice (p : addr) (Els : Elem)
| Ptr (p : addr) (Value : Elem)
| Struct (p : addr) (Name : string) (Fields : list StructField)
with StructField : Type :=
| mkStructField (FieldTag FieldName : string) (FieldElem : Elem).
Set Elimination Schemes.

Definition FieldTag (sf : StructField) : string :=
  match sf with mkStructField t _ _ => t end.
Definition FieldName (sf : StructField) : string :=
  match sf with mkStructField _ n _ => n end.
Definition FieldElem (sf : StructField) : Elem :=
  match sf with mkStructField _ _ e => e end.

Definition isNil (e : Elem) : bool :=
  match e with nilElem => true | _ => false end.

(** ** Allocation and panics *)

Inductive outcome (A : Type) : Type :=
| Done (a : A) (next : addr)
| Panicked.
Arguments Done {A} a next.
Arguments Panicked {A}.

Definition M (A : Type) : Type := addr -> outcome A.

Definition ret {A} (a : A) : M A := fun s => Done a s.
Definition bind {A B} (m : M A) (f : A -> M B) : M B :=
  fun s => match m s with
           | Done a s' => f a s'
           | Panicked => Panicked
           end.
Definition panic {A} : M A := fun _ => Panicked.
(** The & of a composite literal: the next free address. *)
Definition new : M addr := fun s => Done s (S s).

Declare Scope go_scope.
Delimit Scope go_scope with go.
Notation "x <- m ;; k" := (bind m (fun x => k))
  (at level 100, m at next level, right associativity) : go_scope.
Open Scope go_scope.

(** ** embedded *)

Fixpoint embedded (f : Expr) : string :=
  match f with
  | Ident name => name
  | StarExpr x => embedded x
  | _ => ""
  end.

(** ** parseExpr on an identifier *)

(** The switch on the identifier's name: the kind of the element. *)
Definition identBase (name : string) : Base :=
  if name =? "float32" then Float32
  else if name =? "float64" then Float64
  else if name =? "complex128" then Complex128
  else if name =? "complex64" then Complex64
  else if name =? "int" then Int
  else if name =? "int8" then Int8
  else if name =? "int16" then Int16
  else if name =? "int32" then Int32
  else if name =? "int64" then Int64
  else if name =? "uint" then Uint
  else if name =? "uint8" then Uint8
  else if name =? "uint16" then Uint16
  else if name =? "uint32" then Uint32
  else if name =? "uint64" then Uint64
  else if name =? "string" then String_
  else if name =? "bool" then Bool
  else IDENT.

Definition isIDENT (b : Base) : bool :=
  match b with IDENT => true | _ => false end.

(** Every case returns one new BaseElem; only the default case sets
    its Ident field. *)
Definition parseIdent (name : string) : M Elem :=
  p <- new ;;
  ret (BaseElem p (identBase name)
         (if isIDENT (identBase name) then name else "")).

(** ** parseFieldList and parseExpr *)

Fixpoint NumFields (l : list Field) : nat :=
  match l with
  | [] => 0
  | f :: rest =>
      match Names f with
      | [] => 1 + NumFields rest
      | names => length names + NumFields rest
      end
  end.

Section Parse.

(** The value of the msg key of a tag literal,
    reflect.StructTag(strings.Trim(lit, backquote)).Get(msg), a
    function of the Go standard library. *)
Variable msgTag : string -> string.

Definition tagValue (tag : option string) : string :=
  match tag with
  | Some lit => msgTag lit
  | None => ""
  end.

Section FieldList.

Variable parseExpr : Expr -> M Elem.

(** The inner loop of the default case: one field per name, the
    type parsed again for each. *)
Fixpoint names_loop (ty : Expr) (names : list string)
         (out : list StructField) : M (list StructField) :=
  match names with
  | [] => ret out
  | nm :: rest =>
      e <- parseExpr ty ;;
      names_loop ty rest (out ++ [mkStructField nm nm e])
  end.

(** What follows the switch on len(field.Names) for one name or
    none: tag, then type. *)
Definition tagged_field (name : string) (ty : Expr)
           (tag : option string) (out : list StructField)
  : M (list StructField) :=
  let t := tagValue tag in
  if t =? "" then
    e <- parseExpr ty ;;
    if isNil e then ret out
    else ret (out ++ [mkStructField name name e])
  else if t =? "-" then ret out
  else
    e <- parseExpr ty ;;
    if isNil e then ret out
    else ret (out ++ [mkStructField t name e]).

(** One iteration of the loop labelled for_fields. *)
Definition field_step (field : Field) (out : list StructField)
  : M (list StructField) :=
  match field with
  | mkField names ty tag =>
      match names with
      | [nm] => tagged_field nm ty tag out
      | [] => tagged_field (embedded ty) ty tag out
      | _ => names_loop ty names out
      end
  end.

Fixpoint for_fields (l : list Field) (out : list StructField)
  : M (list StructField) :=
  match l with
  | [] => ret out
  | field :: rest =>
      out' <- field_step field out ;;
      for_fields rest out'
  end.

Definition parseFieldList_of (fl : option (list Field))
  : M (list StructField) :=
  match fl with
  | None => ret []
  | Some l =>
      if (NumFields l =? 0)%nat then ret [] else for_fields l []
  end.

End FieldList.

Fixpoint parseExpr (e : Expr) : M Elem :=
  match e with
  | MapType key value =>
      match key with
      | Ident kname =>
          if kname =? "string" then
            match value with
            | Ident vname =>
                if vname =? "string" then
                  p <- new ;; ret (BaseElem p MapStrStr "")
                else if vname =? "interface{}" then
                  p <- new ;; ret (BaseElem p MapStrIntf "")
                else ret nilElem
            | _ => panic
            end
          else ret nilElem
      | _ => ret nilElem
      end
  | Ident name => parseIdent name
  | ArrayType _ elt =>
      match elt with
      | Ident name =>
          if name =? "byte" then
            p <- new ;; ret (BaseElem p Bytes "")
          else
            els <- parseExpr elt ;;
            p <- new ;; ret (Slice p els)
      | _ =>
          els <- parseExpr elt ;;
          p <- new ;; ret (Slice p els)
      end
  | StarExpr x =>
      v <- parseExpr x ;;
      p <- new ;; ret (Ptr p v)
  | StructType fields =>
      fs <- parseFieldList_of parseExpr fields ;;
      p <- new ;; ret (Struct p "" fs)
  | _ => ret nilElem
  end.

Definition parseFieldList : option (list Field) -> M (list StructField) :=
  parseFieldList_of parseExpr.

(** ** GenElem *)

(** The Struct and the Ptr around it are allocated before the length
    of the field list is looked at. *)
Definition GenElem (in_ : TypeSpec) : M Elem :=
  match SpecType in_ with
  | StructType fields =>
      fs <- parseFieldList fields ;;
      v <- new ;;
      p <- new ;;
      if (length fs =? 0)%nat then ret nilElem
      else ret (Ptr p (Struct v (SpecName in_) fs))
  | _ => ret nilElem
  end.

(** ** GetTypeSpecs, GetAST and GetElems *)

Fixpoint specs_loop (specs : list Spec) (out : list TypeSpec)
  : list TypeSpec :=
  match specs with
  | [] => out
  | ATypeSpec ts :: rest => specs_loop rest (out ++ [ts])
  | _ :: rest => specs_loop rest out
  end.

Fixpoint decls_loop (decls : list Decl) (out : list TypeSpec)
  : list TypeSpec :=
  match decls with
  | [] => out
  | GenDecl specs :: rest => decls_loop rest (specs_loop specs out)
  | _ :: rest => decls_loop rest out
  end.

Definition GetTypeSpecs (f : File) : list TypeSpec :=
  decls_loop (Decls f) [].

(** parser.ParseFile of the Go standard library: a tree and no error,
    or an error with whatever tree there is. *)
Variable ParseFile : string -> ParseResult.

(** ast.FileExports of the Go standard library: it trims the tree in
    place to its exported nodes and reports whether any exported
    declaration is left.  The trimmed tree comes first. *)
Variable FileExports : File -> File * bool.

Definition GetAST (filename : string) : option File * option error :=
  match ParseFile filename with
  | failed f err => (f, Some err)
  | parsed f =>
      let (f', exports) := FileExports f in
      if negb exports then (None, Some (errorsNew "no exports in file"))
      else (Some f', None)
  end.

Fixpoint elems_loop (specs : list TypeSpec) (out : list Elem)
  : M (list Elem) :=
  match specs with
  | [] => ret out
  | spec :: rest =>
      el <- GenElem spec ;;
      if isNil el then elems_loop rest out
      else elems_loop rest (out ++ [el])
  end.

(** A nil file with a nil error does not come out of GetAST; reading
    its declarations would be a nil dereference. *)
Definition GetElems (filename : string) : M (list Elem * option error) :=
  let (f, err) := GetAST filename in
  match err with
  | Some e => ret ([], Some e)
  | None =>
      match f with
      | None => panic
      | Some f =>
          match GetTypeSpecs f with
          | [] => ret ([], None)
          | specs =>
              out <- elems_loop specs [] ;;
              ret (out, None)
          end
      end
  end.

End Parse.

(** ** Addresses of an element tree *)

(** The addresses of all the objects of an element tree. *)
Fixpoint addrs (e : Elem) : list addr :=
  match e with
  | nilElem => []
  | BaseElem p _ _ => [p]
  | Slice p els => p :: addrs els
  | Ptr p v => p :: addrs v
  | Struct p _ fs =>
      p :: flat_map (fun sf => match sf with
                               | mkStructField _ _ e' => addrs e'
                               end) fs
  end.

Definition fieldAddrs (fs : list StructField) : list addr :=
  flat_map (fun sf => addrs (FieldElem sf)) fs.


(** The same tree, every object [k] addresses further. *)
Fixpoint shiftElem (k : nat) (e : Elem) : Elem :=
  match e with
  | nilElem => nilElem
  | BaseElem p v i => BaseElem (k + p) v i
  | Slice p els => Slice (k + p) (shiftElem k els)
  | Ptr p v => Ptr (k + p) (shiftElem k v)
  | Struct p n fs =>
      Struct (k + p) n
        (map (fun sf => match sf with
                        | mkStructField t nm e' =>
                            mkStructField t nm (shiftElem k e')
                        end) fs)
  end.

Definition shiftField (k : nat) (sf : StructField) : StructField :=
  mkStructField (FieldTag sf) (FieldName sf) (shiftElem k (FieldElem sf)).

Definition shiftOutcome {A} (f : A -> A) (k : nat) (o : outcome A)
  : outcome A :=
  match o with
  | Done a s => Done (f a) (k + s)
  | Panicked => Panicked
  end.

(** ** The words of the specification *)


(** The source name of a single-named or embedded entry. *)
Definition sourceName (field : Field) : string :=
  match Names field with
  | [nm] => nm
  | _ => embedded (Type_ field)
  end.

(** Embedded field, as the specification words it: at most one level
    of indirection above a bare identifier gives a name, anything else
    gives none. *)
Definition embedded_spec (f : Expr) : option string :=
  match f with
  | Ident name => Some name
  | StarExpr (Ident name) => Some name
  | _ => None
  end.

Definition isByteIdent (e : Expr) : bool :=
  match e with
  | Ident name => name =? "byte"
  | _ => false
  end.

Section Checks.

Variable msgTag : string -> string.

(** The two checks of the field extractor, as properties of an
    entry: its tag does not exclude it, and its type builds to a
    non-nil element. *)
Definition passesTag (field : Field) : bool :=
  negb (tagValue msgTag (Tag field) =? "-").

Definition passesType (field : Field) : bool :=
  match parseExpr msgTag (Type_ field) 0 with
  | Done e _ => negb (isNil e)
  | Panicked => false
  end.

Definition isMulti (field : Field) : bool :=
  (1 <? length (Names field))%nat.

(** The entries a declaration entry stands for after multi-name
    expansion. *)
Definition expansion (field : Field) : nat :=
  match Names field with
  | [] => 1
  | names => length names
  end.

(** The count of the specification: the expanded entries that pass
    both checks. *)
Fixpoint claimedCount (l : list Field) : nat :=
  match l with
  | [] => 0
  | field :: rest =>
      (if passesTag field && passesType field then expansion field
       else 0) + claimedCount rest
  end.

(** The same count with the tag check left out for the multi-name
    entries. *)
Fixpoint eligibleCount (l : list Field) : nat :=
  match l with
  | [] => 0
  | field :: rest =>
      (if (isMulti field || passesTag field) && passesType field
       then expansion field else 0) + eligibleCount rest
  end.

End Checks.

(** The output key of a single-named or embedded entry that is not
    excluded: the value of the tag, or the source name when it is
    empty. *)
Definition outputKey (msgTag : string -> string) (name : string)
           (tag : option string) : string :=
  if tagValue msgTag tag =? "" then name else tagValue msgTag tag.

Definition fieldsOf (fl : option (list Field)) : list Field :=
  match fl with
  | Some l => l
  | None => []
  end.

(** The multi-name entries whose type the builder returns nil for are
    set aside. *)
Definition multiSupported (msgTag : string -> string) (field : Field) : Prop :=
  isMulti field = true -> passesType msgTag field = true.

(** ** Statements about the allocation *)

Definition within (lo hi : addr) (l : list addr) : Prop :=
  forall a, In a l -> lo <= a < hi.

Section Allocation.

Variable msgTag : string -> string.

(** Started [k] addresses further, the builder returns the same tree
    [k] addresses further. *)
Definition shifts (ty : Expr) : Prop :=
  forall k s,
    parseExpr msgTag ty (k + s)
    = shiftOutcome (shiftElem k) k (parseExpr msgTag ty s).

(** The objects of the tree the builder returns are allocated by the
    call. *)
Definition allocates_fresh (ty : Expr) : Prop :=
  forall s e s',
    parseExpr msgTag ty s = Done e s' ->
    s <= s' /\ within s s' (addrs e).

End Allocation.

(** What a loop adds to [out]. *)
Definition extends (m : list StructField -> M (list StructField)) : Prop :=
  forall out s out' s',
    m out s = Done out' s' ->
    s <= s' /\
    exists added, out' = out ++ added /\ within s s' (fieldAddrs added).

(** ** Inputs of the examples *)

Definition dquote : string := String (ascii_of_nat 34) EmptyString.

(** The tag literals `msg:"-"` and `msg:"n"`, backquotes included. *)
Definition tagDash : string := "`msg:" ++ dquote ++ "-" ++ dquote ++ "`".
Definition tagN : string := "`msg:" ++ dquote ++ "n" ++ dquote ++ "`".

(** The value of the msg key on the two literals above. *)
Definition exampleTag (lit : string) : string :=
  if lit =? tagDash then "-"
  else if lit =? tagN then "n"
  else "".

(** pkg.T, a qualified type name. *)
Definition pkgT : Expr := SelectorExpr (Ident "pkg") "T".

(** chan int, a type the builder does not support. *)
Definition chanInt : Expr := ChanType (Ident "int").

(** interface{} *)
Definition emptyInterface : Expr := InterfaceType (Some []).

(** map[string]interface{} *)
Definition dynMap : Expr := MapType (Ident "string") emptyInterface.

(** type T struct { A, B chan int } *)
Definition specChans : TypeSpec :=
  mkTypeSpec "T" (StructType (Some [mkField ["A"; "B"] chanInt None])).

(** type T struct { A, B int `msg:"-"` } *)
Definition specDashed : TypeSpec :=
  mkTypeSpec "T"
    (StructType (Some [mkField ["A"; "B"] (Ident "int") (Some tagDash)])).

(** type T struct { A chan int; B int } *)
Definition specChanSingle : TypeSpec :=
  mkTypeSpec "T"
    (StructType (Some [mkField ["A"] chanInt None;
                       mkField ["B"] (Ident "int") None])).

(** A file whose only declaration is type t struct { a int }, what
    the parser returns for it, and what ast.FileExports does to it:
    nothing is exported, no declaration is left. *)
Definition unexportedOnly : File :=
  mkFile [GenDecl [ATypeSpec
            (mkTypeSpec "t"
               (StructType (Some [mkField ["a"] (Ident "int") None])))]].
Definition exampleParse (filename : string) : ParseResult :=
  parsed unexportedOnly.
Definition exampleExports (f : File) : File * bool := (mkFile [], false).

(** A file whose only declaration is
    type T struct { Name string; Age int }, what the parser returns
    for it, and what ast.FileExports does to it: everything is
    exported, the tree stays as it is. *)
Definition exportedOnly : File :=
  mkFile [GenDecl [ATypeSpec
            (mkTypeSpec "T"
               (StructType (Some [mkField ["Name"] (Ident "string") None;
                                  mkField ["Age"] (Ident "int") None])))]].
Definition exportedParse (filename : string) : ParseResult :=
  parsed exportedOnly.
Definition exportedExports (f : File) : File * bool := (f, true).

(** type T struct { M map[string]interface{}; N int } *)
Definition specDynMap : TypeSpec :=
  mkTypeSpec "T"
    (StructType (Some [mkField ["M"] (MapType (Ident "string") emptyInterface) None;
                       mkField ["N"] (Ident "int") None])).

(** ** Further words for the statements *)

(** The type specs of one declaration, in the order of its specs. *)
Definition typeSpecsOf (d : Decl) : list TypeSpec :=
  match d with
  | GenDecl specs =>
      flat_map (fun sp => match sp with
                          | ATypeSpec ts => [ts]
                          | _ => []
                          end) specs
  | _ => []
  end.

(** The kinds of expression parseExpr builds an object for in every
    case. *)
Definition alwaysBuilds (e : Expr) : bool :=
  match e with
  | Ident _ | StarExpr _ | ArrayType _ _ | StructType _ => true
  | _ => false
  end.

Definition isIdent (e : Expr) : bool :=
  match e with
  | Ident _ => true
  | _ => false
  end.

(** Wherever parseExpr goes in the expression (under pointers, into
    element types and into the types of struct fields), a mapping type
    with the key string has an identifier as its value. *)
Fixpoint valuesAreIdents (e : Expr) : bool :=
  match e with
  | MapType (Ident kname) value =>
      if kname =? "string" then isIdent value else true
  | StarExpr x => valuesAreIdents x
  | ArrayType _ elt => valuesAreIdents elt
  | StructType (Some l) =>
      forallb (fun f => match f with
                        | mkField _ ty _ => valuesAreIdents ty
                        end) l
  | _ => true
  end.

Section Kept.

Variable msgTag : string -> string.

(** The source names and the output keys an entry leaves in the field
    list: all the names of a multi-name entry, and for an entry with
    one name or none its one name and key when it passes the two
    checks. *)
Definition keptNames (field : Field) : list string :=
  if isMulti field then Names field
  else if passesTag msgTag field && passesType msgTag field
       then [sourceName field]
       else [].

Definition keptKeys (field : Field) : list string :=
  if isMulti field then Names field
  else if passesTag msgTag field && passesType msgTag field
       then [outputKey msgTag (sourceName field) (Tag field)]
       else [].

(** A type spec GenElem returns an element for: a struct type with an
    entry that leaves a field. *)
Definition accepted (ts : TypeSpec) : bool :=
  match SpecType ts with
  | StructType fl =>
      negb (length (flat_map keptNames (fieldsOf fl)) =? 0)%nat
  | _ => false
  end.

End Kept.

(** The builder returns for the type, wherever it starts. *)
Definition returns (msgTag : string -> string) (ty : Expr) : Prop :=
  forall s, exists el s', parseExpr msgTag ty s = Done el s'.

(** No object occurs twice in the tree the builder returns. *)
Definition unshared (msgTag : string -> string) (ty : Expr) : Prop :=
  forall s e s',
    parseExpr msgTag ty s = Done e s' ->
    NoDup (addrs e) /\ length (addrs e) = s' - s.

(** What a loop adds to [out] consists of the objects it allocates,
    each of them once. *)
Definition adds_apart (m : list StructField -> M (list StructField)) : Prop :=
  forall out s out' s',
    m out s = Done out' s' ->
    s <= s' /\
    exists added,
      out' = out ++ added
      /\ within s s' (fieldAddrs added)
      /\ NoDup (fieldAddrs added)
      /\ length (fieldAddrs added) = s' - s.

Section Reached.

Variable msgTag : string -> string.

(** The entry is left by the loop before the builder is called: it
    has one name or none and its tag excludes it. *)
Definition skippedByTag (names : list string) (tag : option string) : bool :=
  match names with
  | _ :: _ :: _ => false
  | _ => tagValue msgTag tag =? "-"
  end.

(** Like [valuesAreIdents], without the types of the entries the loop
    leaves before it calls the builder. *)
Fixpoint reachedValuesAreIdents (e : Expr) : bool :=
  match e with
  | MapType (Ident kname) value =>
      if kname =? "string" then isIdent value else true
  | StarExpr x => reachedValuesAreIdents x
  | ArrayType _ elt => reachedValuesAreIdents elt
  | StructType (Some l) =>
      forallb (fun f => match f with
                        | mkField names ty tag =>
                            skippedByTag names tag
                            || reachedValuesAreIdents ty
                        end) l
  | _ => true
  end.

Definition fieldIsBuilt (f : Field) : bool :=
  skippedByTag (Names f) (Tag f) || reachedValuesAreIdents (Type_ f).

(** The type specs GenElem calls the builder for are the struct
    types. *)
Definition specIsBuilt (ts : TypeSpec) : bool :=
  match SpecType ts with
  | StructType fl => reachedValuesAreIdents (StructType fl)
  | _ => true
  end.

(** The predicate decides between returning and panicking. *)
Definition decides (ty : Expr) : Prop :=
  (reachedValuesAreIdents ty = true -> returns msgTag ty)
  /\ (reachedValuesAreIdents ty = false ->
      forall s, parseExpr msgTag ty s = Panicked).

End Reached.

(** A file whose declarations are type M map[string]interface{} and
    type T struct { M map[string]interface{} with the tag msg:"-";
    N int }, and the parser for it. *)
Definition skippedMapFile : File :=
  mkFile [GenDecl [ATypeSpec (mkTypeSpec "M" dynMap);
                   ATypeSpec
                     (mkTypeSpec "T"
                        (StructType
                           (Some [mkField ["M"] dynMap (Some tagDash);
                                  mkField ["N"] (Ident "int") None])))]].
Definition skippedMapParse (filename : string) : ParseResult :=
  parsed skippedMapFile.

(** The name of the declaration an output element was made for. *)
Definition declName (el : Elem) : string :=
  match el with
  | Ptr _ (Struct _ name _) => name
  | _ => ""
  end.

(** The fields of the declaration an output element was made for. *)
Definition declFields (el : Elem) : list StructField :=
  match el with
  | Ptr _ (Struct _ _ fs) => fs
  | _ => []
  end.

(** A parser that fails on every file, with part of a tree. *)
Definition failingParse (filename : string) : ParseResult :=
  failed (Some unexportedOnly) (parserError "expected declaration").

(** * The tagged union of msgp/number.go *)

Module Number.

(** The constants of the type Type that number.go names.  Their
    declaration is in a file of package msgp that is not among the
    sources; the switches of number.go list them as cases side by
    side, so they are distinct values, and the comment in AsInt takes
    InvalidType for the type of the zero Number.  [OtherType] stands
    for every value of the type that number.go does not name. *)
Inductive Type_ : Type :=
| InvalidType
| Float32Type | Float64Type
| Int8Type | Int16Type | Int32Type | Int64Type
| Uint8Type | Uint16Type | Uint32Type | Uint64Type
| OtherType (code : nat).

(** bits is a uint64, a Z from 0 below 2^64. *)
Record Number : Type := mkNumber { bits : Z; typ : Type_ }.

(** The zero value of the struct. *)
Definition zeroNumber : Number := mkNumber 0 InvalidType.

(** The conversions between the integer types, with their wrap-around:
    uint64(i) of an int64, int64(u) of a uint64, uint32(u) of a
    uint64. *)
Definition uint64 (i : Z) : Z := (i mod 2 ^ 64)%Z.
Definition int64 (u : Z) : Z :=
  (if u <? 2 ^ 63 then u else u - 2 ^ 64)%Z.
Definition uint32 (u : Z) : Z := (u mod 2 ^ 32)%Z.

Definition isInt64 (i : Z) : Prop := (- 2 ^ 63 <= i < 2 ^ 63)%Z.
Definition isUint64 (u : Z) : Prop := (0 <= u < 2 ^ 64)%Z.
Definition isUint32 (u : Z) : Prop := (0 <= u < 2 ^ 32)%Z.

(** The methods have a pointer receiver; a method that assigns to the
    fields returns the Number after the call. *)
Definition AsInt (n : Number) (i : Z) : Number :=
  if (i =? 0)%Z then mkNumber 0 InvalidType
  else mkNumber (uint64 i) Int64Type.

Definition AsUint (n : Number) (u : Z) : Number :=
  mkNumber u Uint64Type.

Definition Int (n : Number) : Z * bool :=
  (int64 (bits n),
   match typ n with
   | Int64Type | InvalidType => true
   | _ => false
   end).

Definition Uint (n : Number) : Z * bool :=
  (bits n,
   match typ n with
   | Uint64Type => true
   | _ => false
   end).

Definition Type' (n : Number) : Type_ :=
  match typ n with
  | InvalidType => Int64Type
  | t => t
  end.

(** The errors UnmarshalMsg returns: its own TypeError, or the error
    of one of the read functions. *)
Inductive Err : Type :=
| TypeError (Method Encoded : Type_)
| readError (msg : string).

Definition bytes : Type := list byte.

Section Floats.

(** float32 and float64 with the functions of package math and the
    conversion float64(f); [zero] is the constant 0.0. *)
Variables float32 float64 : Type.
Variable Float32bits : float32 -> Z.
Variable Float64bits : float64 -> Z.
Variable Float32frombits : Z -> float32.
Variable Float64frombits : Z -> float64.
Variable widen : float32 -> float64.
Variable zero : float64.

Definition AsFloat32 (n : Number) (f : float32) : Number :=
  mkNumber (Float32bits f) Float32Type.

Definition AsFloat64 (n : Number) (f : float64) : Number :=
  mkNumber (Float64bits f) Float64Type.

Definition Float (n : Number) : float64 * bool :=
  match typ n with
  | Float32Type => (widen (Float32frombits (uint32 (bits n))), true)
  | Float64Type => (Float64frombits (bits n), true)
  | _ => (zero, false)
  end.

(** The append functions of package msgp, which are not among the
    sources. *)
Variable AppendInt64 : bytes -> Z -> bytes.
Variable AppendUint64 : bytes -> Z -> bytes.
Variable AppendFloat64 : bytes -> float64 -> bytes.
Variable AppendFloat32 : bytes -> float32 -> bytes.

Definition MarshalMsg (n : Number) (b : bytes) : bytes * option Err :=
  match typ n with
  | Int8Type | Int16Type | Int32Type | Int64Type =>
      (AppendInt64 b (int64 (bits n)), None)
  | Uint8Type | Uint16Type | Uint32Type | Uint64Type =>
      (AppendUint64 b (bits n), None)
  | Float64Type => (AppendFloat64 b (Float64frombits (bits n)), None)
  | Float32Type =>
      (AppendFloat32 b (Float32frombits (uint32 (bits n))), None)
  | _ => (AppendInt64 b 0, None)
  end.

(** NextType and the read functions of package msgp, which are not
    among the sources: the value read, the bytes left, the error. *)
Variable NextType : bytes -> Type_.
Variable ReadInt64Bytes : bytes -> Z * bytes * option Err.
Variable ReadUint64Bytes : bytes -> Z * bytes * option Err.
Variable ReadFloat64Bytes : bytes -> float64 * bytes * option Err.
Variable ReadFloat32Bytes : bytes -> float32 * bytes * option Err.

(** The Number after the call, the bytes and the error returned. *)
Definition UnmarshalMsg (n : Number) (b : bytes)
  : Number * bytes * option Err :=
  match NextType b with
  | Int8Type | Int16Type | Int32Type | Int64Type =>
      match ReadInt64Bytes b with
      | (_, _, Some err) => (n, b, Some err)
      | (i, o, None) => (AsInt n i, o, None)
      end
  | Uint8Type | Uint16Type | Uint32Type | Uint64Type =>
      match ReadUint64Bytes b with
      | (_, _, Some err) => (n, b, Some err)
      | (u, o, None) => (AsUint n u, o, None)
      end
  | Float64Type =>
      match ReadFloat64Bytes b with
      | (_, _, Some err) => (n, b, Some err)
      | (f, o, None) => (AsFloat64 n f, o, None)
      end
  | Float32Type =>
      match ReadFloat32Bytes b with
      | (_, _, Some err) => (n, b, Some err)
      | (f, o, None) => (AsFloat32 n f, o, None)
      end
  | t => (n, b, Some (TypeError Int64Type t))
  end.

(** The formatting functions of package strconv, with the format, the
    precision and the base of the calls fixed. *)
Variable FormatFloat : float64 -> string.
Variable FormatInt : Z -> string.
Variable FormatUint : Z -> string.

(** None is the panic of the default case. *)
Definition String (n : Number) : option string :=
  match typ n with
  | InvalidType => Some "0"
  | Float32Type | Float64Type => Some (FormatFloat (fst (Float n)))
  | Int8Type | Int16Type | Int32Type | Int64Type =>
      Some (FormatInt (fst (Int n)))
  | Uint8Type | Uint16Type | Uint32Type | Uint64Type =>
      Some (FormatUint (fst (Uint n)))
  | OtherType _ => None
  end.

Variable AppendFloat : bytes -> float64 -> bytes.
Variable AppendInt : bytes -> Z -> bytes.
Variable AppendUint : bytes -> Z -> bytes.

(** None is the panic of the default case; "0" is the byte 0x30. *)
Definition MarshalJSON (n : Number) : option (bytes * option Err) :=
  let t := Type' n in
  match t with
  | InvalidType => Some ([x30], None)
  | Float32Type | Float64Type =>
      Some (AppendFloat [] (fst (Float n)), None)
  | Int8Type | Int16Type | Int32Type | Int64Type =>
      Some (AppendInt [] (fst (Int n)), None)
  | Uint8Type | Uint16Type | Uint32Type | Uint64Type =>
      Some (AppendUint [] (fst (Uint n)), None)
  | OtherType _ => None
  end.

End Floats.

(** The type the setters store for an encoded type, when UnmarshalMsg
    has a case for it. *)
Definition stored (t : Type_) : option Type_ :=
  match t with
  | Int8Type | Int16Type | Int32Type | Int64Type => Some Int64Type
  | Uint8Type | Uint16Type | Uint32Type | Uint64Type => Some Uint64Type
  | Float64Type => Some Float64Type
  | Float32Type => Some Float32Type
  | _ => None
  end.

(** A Number as the setters leave it. *)
Definition fromSetter (n : Number) : Prop :=
  isUint64 (bits n)
  /\ match typ n with
     | InvalidType => bits n = 0%Z
     | Int64Type => bits n <> 0%Z
     | Uint64Type | Float64Type => True
     | Float32Type => isUint32 (bits n)
     | _ => False
     end.

End Number.

(** ** Stand-ins for the examples of number.go *)

(** In the examples a float is the integer of its bits, an append
    function appends one byte, a read function reads the integer 7
    without an error, NextType finds Int8Type in a non-empty input,
    and a format function writes one letter. *)
Definition exBits (f : Z) : Z := f.
Definition exAppend (b : Number.bytes) (v : Z) : Number.bytes := b ++ [x00].
Definition exFormat (v : Z) : string := "v".
Definition exNextType (b : Number.bytes) : Number.Type_ :=
  match b with
  | [] => Number.OtherType 0
  | _ => Number.Int8Type
  end.
Definition exRead (b : Number.bytes) : Z * Number.bytes * option Number.Err :=
  (7%Z, tl b, None).

(** * The tag lookup of line 136, with the Go functions it calls *)

(** Line 136 of getast.go is
    reflect.StructTag(strings.Trim(field.Tag.Value, backquote)).Get(msg).
    strings.Trim and reflect.StructTag.Get belong to the Go standard
    library; they are written out here (Get after reflect/type.go) so
    that the value the code finds can be set against the literal the
    field carries.  strconv.Unquote stays a parameter. *)

Definition backquote : ascii := "`"%char.
Definition dq : ascii := ascii_of_nat 34.
Definition backslash : ascii := ascii_of_nat 92.
Definition colon : ascii := ":"%char.
Definition space : ascii := " "%char.

(** strings.Trim(s, cutset) for a cutset of one byte. *)
Fixpoint trimLeft (c : ascii) (s : string) : string :=
  match s with
  | EmptyString => EmptyString
  | String a r => if Ascii.eqb a c then trimLeft c r else s
  end.

Fixpoint trimRight (c : ascii) (s : string) : string :=
  match s with
  | EmptyString => EmptyString
  | String a r =>
      match trimRight c r with
      | EmptyString => if Ascii.eqb a c then EmptyString
                       else String a EmptyString
      | r' => String a r'
      end
  end.

Definition Trim (s : string) (c : ascii) : string :=
  trimLeft c (trimRight c s).

(** tag[:n] and tag[n:]. *)
Fixpoint take (n : nat) (s : string) : string :=
  match n, s with
  | S n', String a r => String a (take n' r)
  | _, _ => EmptyString
  end.

Fixpoint drop (n : nat) (s : string) : string :=
  match n, s with
  | S n', String _ r => drop n' r
  | _, _ => s
  end.

(** Skip leading space. *)
Fixpoint skipSpaces (tag : string) : string :=
  match tag with
  | EmptyString => EmptyString
  | String a r => if Ascii.eqb a space then skipSpaces r else tag
  end.

(** Scan to colon: a space, a quote or a control character ends the
    key. *)
Definition keyByte (a : ascii) : bool :=
  (32 <? nat_of_ascii a)%nat
  && negb (Ascii.eqb a colon)
  && negb (Ascii.eqb a dq)
  && negb (nat_of_ascii a =? 127)%nat.

Fixpoint scanKey (tag : string) : nat :=
  match tag with
  | EmptyString => 0
  | String a r => if keyByte a then S (scanKey r) else 0
  end.

(** Scan quoted string to find value: [s] is tag[i:]; the result is
    the index of the closing quote, or an index outside the tag. *)
Fixpoint scanValueFrom (s : string) (i : nat) : nat :=
  match s with
  | EmptyString => i
  | String a r =>
      if Ascii.eqb a dq then i
      else if Ascii.eqb a backslash then
             match r with
             | EmptyString => i + 2
             | String _ r' => scanValueFrom r' (i + 2)
             end
           else scanValueFrom r (i + 1)
  end.

Definition scanValue (tag : string) : nat :=
  match tag with
  | EmptyString => 1
  | String _ r => scanValueFrom r 1
  end.

Definition byteIs (tag : string) (i : nat) (c : ascii) : bool :=
  match String.get i tag with
  | Some a => Ascii.eqb a c
  | None => false
  end.

Section StructTag.

(** strconv.Unquote: the string a quoted string stands for, or an
    error. *)
Variable Unquote : string -> option string.

(** The loop of reflect.StructTag.Lookup, at most [rounds] times
    round; every round that goes on to the next has dropped a key, a
    colon and a quoted value from the tag, so the length of the tag is
    enough rounds.  None is the result when the key is not found. *)
Fixpoint lookupRounds (rounds : nat) (tag key : string) : option string :=
  match rounds with
  | 0 => None
  | S rounds' =>
      let tag := skipSpaces tag in
      if tag =? "" then None
      else
        let i := scanKey tag in
        if (i =? 0)%nat || (String.length tag <=? i + 1)%nat
           || negb (byteIs tag i colon) || negb (byteIs tag (i + 1) dq)
        then None
        else
          let name := take i tag in
          let tag := drop (i + 1) tag in
          let i := scanValue tag in
          if (String.length tag <=? i)%nat then None
          else
            let qvalue := take (i + 1) tag in
            let tag := drop (i + 1) tag in
            if key =? name then Unquote qvalue
            else lookupRounds rounds' tag key
  end.

Definition Lookup (tag key : string) : option string :=
  lookupRounds (S (String.length tag)) tag key.

Definition Get (tag key : string) : string :=
  match Lookup tag key with
  | Some value => value
  | None => ""
  end.

(** Line 136. *)
Definition goMsgTag (lit : string) : string :=
  Get (Trim lit backquote) "msg".

End StructTag.

(** A raw string literal: the text between two backquotes, which has
    no backquote in it. *)
Definition rawLiteral (content : string) : string :=
  String backquote (content ++ String backquote EmptyString).

Fixpoint noBackquote (s : string) : bool :=
  match s with
  | EmptyString => true
  | String a r => negb (Ascii.eqb a backquote) && noBackquote r
  end.

(** ** Stand-in for strconv.Unquote in the examples *)

(** For a string in double quotes whose only escapes are a backslash
    before a double quote or before a backslash, the string it stands
    for; an error for anything else. *)
Fixpoint unescape (s : string) : option string :=
  match s with
  | EmptyString => None
  | String a r =>
      if Ascii.eqb a dq then
        match r with
        | EmptyString => Some EmptyString
        | _ => None
        end
      else if Ascii.eqb a backslash then
             match r with
             | String b r' =>
                 if Ascii.eqb b dq || Ascii.eqb b backslash
                 then option_map (String b) (unescape r')
                 else None
             | EmptyString => None
             end
           else option_map (String a) (unescape r)
  end.

Definition exUnquote (q : string) : option string :=
  match q with
  | String a r => if Ascii.eqb a dq then unescape r else None
  | EmptyString => None
  end.

(** The tag msg:"-", and the two literals a source file can carry it
    in: the raw one, in backquotes, and the interpreted one, in double
    quotes with the inner quotes escaped. *)
Definition tagDashContent : string :=
  "msg:" ++ String dq "-" ++ String dq "".
Definition tagDashRaw : string := rawLiteral tagDashContent.
Definition tagDashInterpreted : string :=
  String dq "msg:" ++ String backslash (String dq "-")
    ++ String backslash (String dq (String dq "")).

(** The type of an embedded field as the grammar of Go has it: a type
    name, which may be qualified by a package, under one star or
    none. *)
Definition isTypeName (e : Expr) : bool :=
  match e with
  | Ident _ => true
  | SelectorExpr (Ident _) _ => true
  | _ => false
  end.

Definition embeddedFieldType (e : Expr) : bool :=
  match e with
  | StarExpr x => isTypeName x
  | _ => isTypeName e
  end.

(** The name the specification derives for an embedded field, the
    empty string standing for no name. *)
Definition specEmbeddedName (f : Expr) : string :=
  match embedded_spec f with
  | Some name => name
  | None => ""
  end.

(** * Properties *)

(** ** Induction on type expressions, through the field lists *)

Section Expr_nested_ind.

Variable P : Expr -> Prop.

Hypothesis case_StarExpr : forall x, P x -> P (StarExpr x).
Hypothesis case_ArrayType : forall len elt, P elt -> P (ArrayType len elt).
Hypothesis case_StructType :
  forall l, Forall (fun f => P (Type_ f)) l -> P (StructType (Some l)).
(** The expressions parseExpr does not descend into. *)
Hypothesis case_other :
  forall e,
    match e with
    | StarExpr _ | ArrayType _ _ | StructType (Some _) => False
    | _ => True
    end -> P e.

Fixpoint Expr_nested_ind (e : Expr) : P e :=
  match e with
  | StarExpr x => case_StarExpr x (Expr_nested_ind x)
  | ArrayType len elt => case_ArrayType len elt (Expr_nested_ind elt)
  | StructType (Some l) =>
      case_StructType l
        ((fix types (fs : list Field) : Forall (fun f => P (Type_ f)) fs :=
            match fs with
            | [] => Forall_nil _
            | mkField names ty tag :: rest =>
                Forall_cons (mkField names ty tag)
                  (Expr_nested_ind ty) (types rest)
            end) l)
  | e' => case_other e' I
  end.

End Expr_nested_ind.

(** ** Unfolding the builder *)

Ltac run := unfold bind, ret, new, panic; simpl.

Lemma parseExpr_StructType msgTag fl :
  parseExpr msgTag (StructType fl) =
  (fs <- parseFieldList msgTag fl ;; p <- new ;; ret (Struct p "" fs)).
Proof. reflexivity. Qed.

Lemma parseExpr_StarExpr msgTag x :
  parseExpr msgTag (StarExpr x) =
  (v <- parseExpr msgTag x ;; p <- new ;; ret (Ptr p v)).
Proof. reflexivity. Qed.

Lemma parseExpr_byte_slice msgTag len s :
  parseExpr msgTag (ArrayType len (Ident "byte")) s
  = Done (BaseElem s Bytes "") (S s).
Proof. reflexivity. Qed.

Lemma parseExpr_generic_slice msgTag len elt :
  isByteIdent elt = false ->
  parseExpr msgTag (ArrayType len elt) =
  (els <- parseExpr msgTag elt ;; p <- new ;; ret (Slice p els)).
Proof.
  intro Hb. destruct elt; try reflexivity.
  simpl in Hb. cbn [parseExpr]. rewrite Hb. reflexivity.
Qed.

Lemma isByteIdent_true elt :
  isByteIdent elt = true -> elt = Ident "byte".
Proof.
  destruct elt; simpl; try discriminate.
  intro H. apply String.eqb_eq in H. now subst.
Qed.

Lemma parseExpr_other msgTag e s :
  match e with
  | Ident _ | StarExpr _ | ArrayType _ _ | StructType _ | MapType _ _ => False
  | _ => True
  end ->
  parseExpr msgTag e s = Done nilElem s.
Proof. destruct e; intros H; try contradiction; reflexivity. Qed.

Lemma bind_Done {A B} (m : M A) (f : A -> M B) s a s' :
  m s = Done a s' -> bind m f s = f a s'.
Proof. unfold bind. now intros ->. Qed.

Lemma bind_Panicked {A B} (m : M A) (f : A -> M B) s :
  m s = Panicked -> bind m f s = Panicked.
Proof. unfold bind. now intros ->. Qed.

Lemma bind_inv {A B} (m : M A) (f : A -> M B) s b s' :
  bind m f s = Done b s' ->
  exists a t, m s = Done a t /\ f a t = Done b s'.
Proof.
  unfold bind. destruct (m s) as [a t|]; [|discriminate].
  intro H. now exists a, t.
Qed.

Lemma NumFields_expansion field rest :
  NumFields (field :: rest) = expansion field + NumFields rest.
Proof. cbn [NumFields]. unfold expansion. now destruct (Names field). Qed.

(** ** The builder does not depend on where it allocates *)

Lemma isNil_shiftElem k e : isNil (shiftElem k e) = isNil e.
Proof. now destruct e. Qed.

Lemma shiftElem_Struct k p n fs :
  shiftElem k (Struct p n fs) = Struct (k + p) n (map (shiftField k) fs).
Proof.
  simpl. f_equal. apply map_ext. now intros [t nm e].
Qed.

Lemma shiftField_app k out sf :
  map (shiftField k) (out ++ [sf]) = map (shiftField k) out ++ [shiftField k sf].
Proof. now rewrite map_app. Qed.

Section Shift.

Variable msgTag : string -> string.

Lemma names_loop_shift ty names :
  shifts msgTag ty ->
  forall out k s,
    names_loop (parseExpr msgTag) ty names (map (shiftField k) out) (k + s)
    = shiftOutcome (map (shiftField k)) k
        (names_loop (parseExpr msgTag) ty names out s).
Proof.
  intro Hty. induction names as [|nm rest IH]; intros out k s.
  - reflexivity.
  - cbn [names_loop]. unfold bind. rewrite Hty.
    destruct (parseExpr msgTag ty s) as [e t|]; [|reflexivity].
    cbn [shiftOutcome]. rewrite <- IH. now rewrite shiftField_app.
Qed.

Lemma tagged_field_shift name ty tag :
  shifts msgTag ty ->
  forall out k s,
    tagged_field msgTag (parseExpr msgTag) name ty tag
      (map (shiftField k) out) (k + s)
    = shiftOutcome (map (shiftField k)) k
        (tagged_field msgTag (parseExpr msgTag) name ty tag out s).
Proof.
  intros Hty out k s. unfold tagged_field.
  destruct (tagValue msgTag tag =? "");
    [|destruct (tagValue msgTag tag =? "-"); [reflexivity|]];
    unfold bind; rewrite Hty;
    (destruct (parseExpr msgTag ty s) as [e t|]; [|reflexivity]);
    cbn [shiftOutcome]; rewrite isNil_shiftElem;
    (destruct (isNil e); [reflexivity|]);
    unfold ret; cbn [shiftOutcome]; now rewrite shiftField_app.
Qed.

Lemma field_step_shift field :
  shifts msgTag (Type_ field) ->
  forall out k s,
    field_step msgTag (parseExpr msgTag) field (map (shiftField k) out) (k + s)
    = shiftOutcome (map (shiftField k)) k
        (field_step msgTag (parseExpr msgTag) field out s).
Proof.
  destruct field as [names ty tag]. cbn [Type_]. intros Hty out k s.
  unfold field_step. destruct names as [|nm [|nm' rest]].
  - now apply tagged_field_shift.
  - now apply tagged_field_shift.
  - now apply names_loop_shift.
Qed.

Lemma for_fields_shift l :
  Forall (fun f => shifts msgTag (Type_ f)) l ->
  forall out k s,
    for_fields msgTag (parseExpr msgTag) l (map (shiftField k) out) (k + s)
    = shiftOutcome (map (shiftField k)) k
        (for_fields msgTag (parseExpr msgTag) l out s).
Proof.
  induction 1 as [|field rest Hf _ IH]; intros out k s.
  - reflexivity.
  - cbn [for_fields]. unfold bind. rewrite (field_step_shift field Hf).
    destruct (field_step msgTag (parseExpr msgTag) field out s) as [out' t|];
      [|reflexivity].
    cbn [shiftOutcome]. apply IH.
Qed.

Lemma parseMap_shift key value : shifts msgTag (MapType key value).
Proof.
  intros k s. cbn [parseExpr].
  destruct key; try reflexivity.
  destruct (Name =? "string"); [|reflexivity].
  destruct value; try reflexivity.
  destruct (Name0 =? "string");
    [|destruct (Name0 =? "interface{}"); [|reflexivity]];
    run; now rewrite Nat.add_succ_r.
Qed.

Lemma parseExpr_shift : forall e, shifts msgTag e.
Proof.
  induction e as [x IH|len elt IH|l IH|e He] using Expr_nested_ind;
    intros k s.
  - rewrite parseExpr_StarExpr. unfold bind. rewrite IH.
    destruct (parseExpr msgTag x s) as [v t|]; [|reflexivity].
    run. now rewrite Nat.add_succ_r.
  - destruct (isByteIdent elt) eqn:Hb.
    + apply isByteIdent_true in Hb. subst elt.
      rewrite !parseExpr_byte_slice. simpl. now rewrite Nat.add_succ_r.
    + rewrite (parseExpr_generic_slice msgTag len elt Hb).
      unfold bind. rewrite IH.
      destruct (parseExpr msgTag elt s) as [v t|]; [|reflexivity].
      run. now rewrite Nat.add_succ_r.
  - rewrite parseExpr_StructType. unfold bind.
    unfold parseFieldList, parseFieldList_of.
    destruct (NumFields l =? 0)%nat.
    + run. now rewrite Nat.add_succ_r.
    + change (@nil StructField) with (map (shiftField k) []) at 1.
      rewrite (for_fields_shift l IH).
      destruct (for_fields msgTag (parseExpr msgTag) l [] s) as [fs t|];
        [|reflexivity].
      run. rewrite Nat.add_succ_r. do 2 f_equal.
      apply map_ext. now intros [tg nm e].
  - destruct e; try contradiction; try reflexivity.
    + run. now rewrite Nat.add_succ_r.
    + destruct Fields; [contradiction|]. run. now rewrite Nat.add_succ_r.
    + apply parseMap_shift.
Qed.

(** Whether the builder returns, and whether what it returns is nil,
    is the same at every address. *)
Lemma parseExpr_relocate ty s e s' t :
  parseExpr msgTag ty s = Done e s' ->
  exists e' t', parseExpr msgTag ty t = Done e' t' /\ isNil e' = isNil e.
Proof.
  intro H.
  pose proof (parseExpr_shift ty s 0) as Hs.
  pose proof (parseExpr_shift ty t 0) as Ht.
  rewrite Nat.add_0_r in Hs, Ht.
  destruct (parseExpr msgTag ty 0) as [e0 t0|].
  - rewrite H in Hs. cbn [shiftOutcome] in Hs, Ht.
    injection Hs as He _. subst e.
    exists (shiftElem t e0), (t + t0). split; [exact Ht|].
    now rewrite !isNil_shiftElem.
  - rewrite Hs in H. discriminate.
Qed.

End Shift.

(** ** Every object the builder returns is newly allocated *)

Lemma addrs_Struct p n fs : addrs (Struct p n fs) = p :: fieldAddrs fs.
Proof.
  simpl. f_equal. unfold fieldAddrs. apply flat_map_ext. now intros [t nm e].
Qed.

Lemma fieldAddrs_app fs gs : fieldAddrs (fs ++ gs) = fieldAddrs fs ++ fieldAddrs gs.
Proof. unfold fieldAddrs. apply flat_map_app. Qed.

Lemma within_widen lo hi lo' hi' l :
  within lo hi l -> lo' <= lo -> hi <= hi' -> within lo' hi' l.
Proof. intros H ? ? a Ha. specialize (H a Ha). lia. Qed.

Lemma within_app lo hi l l' :
  within lo hi l -> within lo hi l' -> within lo hi (l ++ l').
Proof. intros H H' a Ha. apply in_app_or in Ha. destruct Ha; auto. Qed.

Lemma within_nil lo hi : within lo hi [].
Proof. intros a []. Qed.

Lemma within_cons lo hi a l :
  lo <= a < hi -> within lo hi l -> within lo hi (a :: l).
Proof. intros Ha H b [<-|Hb]; auto. Qed.

Create HintDb ranges.
#[local] Hint Resolve within_nil within_app within_cons : ranges.

Section Fresh.

Variable msgTag : string -> string.

Lemma names_loop_extends ty names :
  allocates_fresh msgTag ty -> extends (names_loop (parseExpr msgTag) ty names).
Proof.
  intro Hty. induction names as [|nm rest IH]; intros out s out' s' H.
  - injection H as <- <-. split; [lia|]. exists []. rewrite app_nil_r.
    auto with ranges.
  - cbn [names_loop] in H. apply bind_inv in H as (e & t & He & H).
    apply Hty in He as [Hle He]. apply IH in H as [Hle' (added & -> & Ha)].
    split; [lia|]. exists (mkStructField nm nm e :: added).
    rewrite <- app_assoc. split; [reflexivity|].
    change (mkStructField nm nm e :: added)
      with ([mkStructField nm nm e] ++ added).
    rewrite fieldAddrs_app. apply within_app.
    + unfold fieldAddrs. simpl. rewrite app_nil_r.
      eapply within_widen; eauto.
    + eapply within_widen; eauto.
Qed.

Lemma tagged_field_extends name ty tag :
  allocates_fresh msgTag ty -> extends (tagged_field msgTag (parseExpr msgTag) name ty tag).
Proof.
  intros Hty out s out' s' H. unfold tagged_field in H.
  assert (Hskip : forall o t, ret o t = Done out' s' -> o = out ->
            s <= t -> t <= s' /\ exists added : list StructField,
              out' = out ++ added /\ within t s' (fieldAddrs added)).
  { intros o t Ho -> _. injection Ho as <- <-. split; [lia|].
    exists []. rewrite app_nil_r. auto with ranges. }
  assert (Hone : forall key,
    (e <- parseExpr msgTag ty ;;
     if isNil e then ret out else ret (out ++ [mkStructField key name e])) s
    = Done out' s' ->
    s <= s' /\ exists added, out' = out ++ added /\ within s s' (fieldAddrs added)).
  { intros key Hk. apply bind_inv in Hk as (e & t & He & Hk).
    apply Hty in He as [Hle He]. destruct (isNil e).
    - injection Hk as <- <-. split; [lia|]. exists [].
      rewrite app_nil_r. auto with ranges.
    - injection Hk as <- <-. split; [lia|].
      exists [mkStructField key name e]. split; [reflexivity|].
      unfold fieldAddrs. simpl. now rewrite app_nil_r. }
  destruct (tagValue msgTag tag =? ""); [now apply Hone with name|].
  destruct (tagValue msgTag tag =? "-"); [|now apply Hone with (tagValue msgTag tag)].
  injection H as <- <-. split; [lia|]. exists []. rewrite app_nil_r.
  auto with ranges.
Qed.

Lemma field_step_extends field :
  allocates_fresh msgTag (Type_ field) -> extends (field_step msgTag (parseExpr msgTag) field).
Proof.
  destruct field as [names ty tag]. cbn [Type_]. intro Hty.
  unfold field_step. destruct names as [|nm [|nm' rest]].
  - now apply tagged_field_extends.
  - now apply tagged_field_extends.
  - now apply names_loop_extends.
Qed.

Lemma for_fields_extends l :
  Forall (fun f => allocates_fresh msgTag (Type_ f)) l ->
  extends (for_fields msgTag (parseExpr msgTag) l).
Proof.
  induction 1 as [|field rest Hf _ IH]; intros out s out' s' H.
  - injection H as <- <-. split; [lia|]. exists []. rewrite app_nil_r.
    auto with ranges.
  - cbn [for_fields] in H. apply bind_inv in H as (o & t & Ho & H).
    apply (field_step_extends field Hf) in Ho as [Hle (a1 & -> & Ha1)].
    apply IH in H as [Hle' (a2 & -> & Ha2)].
    split; [lia|]. exists (a1 ++ a2). rewrite app_assoc.
    split; [reflexivity|]. rewrite fieldAddrs_app.
    apply within_app; eapply within_widen; eauto.
Qed.

Lemma parseExpr_fresh : forall ty, allocates_fresh msgTag ty.
Proof.
  induction ty as [x IH|len elt IH|l IH|e He] using Expr_nested_ind;
    intros s el s' H.
  - rewrite parseExpr_StarExpr in H. apply bind_inv in H as (v & t & Hv & H).
    apply IH in Hv as [Hle Hv]. injection H as <- <-. split; [lia|].
    simpl. apply within_cons; [lia|]. eapply within_widen; eauto.
  - destruct (isByteIdent elt) eqn:Hb.
    + apply isByteIdent_true in Hb. subst elt.
      rewrite parseExpr_byte_slice in H. injection H as <- <-.
      split; [lia|]. simpl. apply within_cons; [lia|auto with ranges].
    + rewrite (parseExpr_generic_slice msgTag len elt Hb) in H.
      apply bind_inv in H as (v & t & Hv & H).
      apply IH in Hv as [Hle Hv]. injection H as <- <-. split; [lia|].
      simpl. apply within_cons; [lia|]. eapply within_widen; eauto.
  - rewrite parseExpr_StructType in H. apply bind_inv in H as (fs & t & Hfs & H).
    injection H as <- <-. rewrite addrs_Struct.
    unfold parseFieldList, parseFieldList_of in Hfs.
    destruct (NumFields l =? 0)%nat.
    + injection Hfs as <- <-. split; [lia|].
      apply within_cons; [lia|]. intros a [].
    + apply (for_fields_extends l IH) in Hfs as [Hle (added & -> & Ha)].
      split; [lia|]. apply within_cons; [lia|].
      simpl. eapply within_widen; eauto.
  - assert (Hnil : forall t, Done nilElem t = Done el s' ->
              t <= s' /\ within t s' (addrs el)).
    { intros t Ht. injection Ht as <- <-. split; [lia|auto with ranges]. }
    assert (Hone : forall t b i, Done (BaseElem t b i) (S t) = Done el s' ->
              t <= s' /\ within t s' (addrs el)).
    { intros t b i Ht. injection Ht as <- <-. split; [lia|].
      simpl. apply within_cons; [lia|auto with ranges]. }
    destruct e; try contradiction; try (now apply Hnil).
    + now apply Hone in H.
    + destruct Fields; [contradiction|]. injection H as <- <-.
      split; [lia|]. simpl. apply within_cons; [lia|auto with ranges].
    + cbn [parseExpr] in H.
      destruct e1; try (now apply Hnil).
      destruct (Name =? "string"); [|now apply Hnil].
      destruct e2; try discriminate.
      destruct (Name0 =? "string");
        [|destruct (Name0 =? "interface{}")];
        try (now apply Hnil); now apply Hone in H.
Qed.

End Fresh.

(** ** One field with one name or none *)

Section TaggedField.

Variable msgTag : string -> string.

Lemma tagged_field_excluded name ty tag out s :
  tagValue msgTag tag = "-" ->
  tagged_field msgTag (parseExpr msgTag) name ty tag out s = Done out s.
Proof. unfold tagged_field. now intros ->. Qed.

Lemma tagged_field_kept name ty tag out s e s' :
  tagValue msgTag tag <> "-" ->
  parseExpr msgTag ty s = Done e s' ->
  isNil e = false ->
  tagged_field msgTag (parseExpr msgTag) name ty tag out s
  = Done (out ++ [mkStructField (outputKey msgTag name tag) name e]) s'.
Proof.
  intros Ht He Hn. unfold tagged_field, outputKey.
  destruct (tagValue msgTag tag =? "") eqn:E0.
  - rewrite (bind_Done _ _ _ _ _ He), Hn. reflexivity.
  - destruct (String.eqb_spec (tagValue msgTag tag) "-") as [E|_];
      [contradiction|].
    rewrite (bind_Done _ _ _ _ _ He), Hn. reflexivity.
Qed.

Lemma tagged_field_dropped name ty tag out s s' :
  parseExpr msgTag ty s = Done nilElem s' ->
  tagValue msgTag tag <> "-" ->
  tagged_field msgTag (parseExpr msgTag) name ty tag out s = Done out s'.
Proof.
  intros He Ht. unfold tagged_field.
  destruct (tagValue msgTag tag =? "") eqn:E0.
  - now rewrite (bind_Done _ _ _ _ _ He).
  - destruct (String.eqb_spec (tagValue msgTag tag) "-") as [E|_];
      [contradiction|].
    now rewrite (bind_Done _ _ _ _ _ He).
Qed.

Lemma tagged_field_panics name ty tag out s :
  parseExpr msgTag ty s = Panicked ->
  tagValue msgTag tag <> "-" ->
  tagged_field msgTag (parseExpr msgTag) name ty tag out s = Panicked.
Proof.
  intros He Ht. unfold tagged_field.
  destruct (tagValue msgTag tag =? "") eqn:E0.
  - now rewrite (bind_Panicked _ _ _ He).
  - destruct (String.eqb_spec (tagValue msgTag tag) "-") as [E|_];
      [contradiction|].
    now rewrite (bind_Panicked _ _ _ He).
Qed.

Lemma field_step_single nm ty tag out :
  field_step msgTag (parseExpr msgTag) (mkField [nm] ty tag) out
  = tagged_field msgTag (parseExpr msgTag) nm ty tag out.
Proof. reflexivity. Qed.

Lemma field_step_embedded ty tag out :
  field_step msgTag (parseExpr msgTag) (mkField [] ty tag) out
  = tagged_field msgTag (parseExpr msgTag) (embedded ty) ty tag out.
Proof. reflexivity. Qed.

Lemma field_step_sourceName field out :
  length (Names field) <= 1 ->
  field_step msgTag (parseExpr msgTag) field out
  = tagged_field msgTag (parseExpr msgTag) (sourceName field)
      (Type_ field) (Tag field) out.
Proof.
  destruct field as [[|nm [|nm' rest]] ty tag]; simpl; intro H;
    try reflexivity.
  lia.
Qed.

End TaggedField.

(** ** The element builder *)

Section ElementBuilder.

Variable msgTag : string -> string.

Lemma parseExpr_map_string_string s :
  parseExpr msgTag (MapType (Ident "string") (Ident "string")) s
  = Done (BaseElem s MapStrStr "") (S s).
Proof. reflexivity. Qed.

Lemma parseExpr_map_other_key key value s :
  key <> Ident "string" ->
  parseExpr msgTag (MapType key value) s = Done nilElem s.
Proof.
  intro Hk. destruct key; try reflexivity. cbn [parseExpr].
  destruct (String.eqb_spec Name "string") as [->|_]; [contradiction|].
  reflexivity.
Qed.

Lemma parseExpr_map_value_not_ident value s :
  match value with Ident _ => False | _ => True end ->
  parseExpr msgTag (MapType (Ident "string") value) s = Panicked.
Proof. destruct value; intro H; try contradiction; reflexivity. Qed.

(** C1, at the failing input.  For the mapping type
    map[string]interface{} the builder does not return the
    map-string-any base element, and it does not return nil either: the
    value of the mapping is an interface type, not an identifier, and
    the unchecked type assertion on it panics.  The panic is not
    confined to the field: parseFieldList and GenElem panic on
    struct { M map[string]interface{}; N int }. *)
Theorem keyed_mapping_dynamic_value_panics :
  forall s,
    parseExpr msgTag (MapType (Ident "string") emptyInterface) s = Panicked
    /\ parseFieldList msgTag
         (Some [mkField ["M"] (MapType (Ident "string") emptyInterface) None;
                mkField ["N"] (Ident "int") None]) s = Panicked
    /\ GenElem msgTag specDynMap s = Panicked.
Proof. intro s. repeat split; reflexivity. Qed.

(** C2, as amended.  A sequence type whose element type is written
    byte builds to the bytes base element, one new object and no
    Sequence; a sequence whose element type is any other identifier,
    uint8 included, builds to a Sequence around the element of that
    identifier. *)
Theorem byte_sequence_is_bytes :
  forall len s,
    parseExpr msgTag (ArrayType len (Ident "byte")) s
    = Done (BaseElem s Bytes "") (S s)
    /\ parseExpr msgTag (ArrayType len (Ident "uint8")) s
       = Done (Slice (S s) (BaseElem s Uint8 "")) (S (S s)).
Proof. intros len s. split; reflexivity. Qed.

(** C5, as amended.  For a sequence type whose element type is not
    the identifier byte, the builder builds the element type and puts
    the result into a new Sequence, whatever the result is: a panic of
    the inner build is a panic of the whole, and a nil inner element
    gives a Sequence that is not nil and holds nil. *)
Theorem generic_sequence_wraps_inner :
  forall len elt s,
    isByteIdent elt = false ->
    parseExpr msgTag (ArrayType len elt) s
    = (els <- parseExpr msgTag elt ;; p <- new ;; ret (Slice p els)) s
    /\ (forall s', parseExpr msgTag elt s = Done nilElem s' ->
                   parseExpr msgTag (ArrayType len elt) s
                   = Done (Slice s' nilElem) (S s')).
Proof.
  intros len elt s Hb. rewrite (parseExpr_generic_slice msgTag len elt Hb).
  split; [reflexivity|]. intros s' He.
  now rewrite (bind_Done _ _ _ _ _ He).
Qed.

(** C10.  When the builder returns nil for the type under a pointer,
    it returns for the pointer type a new Optional that holds nil, not
    nil; a single-named field of that pointer type whose tag does not
    exclude it passes the nil check and is appended to the field list,
    and the loop goes on with the next entry. *)
Theorem pointer_to_unsupported_survives :
  forall x s s',
    parseExpr msgTag x s = Done nilElem s' ->
    parseExpr msgTag (StarExpr x) s = Done (Ptr s' nilElem) (S s')
    /\ isNil (Ptr s' nilElem) = false
    /\ forall nm tag rest out,
         tagValue msgTag tag <> "-" ->
         for_fields msgTag (parseExpr msgTag)
           (mkField [nm] (StarExpr x) tag :: rest) out s
         = for_fields msgTag (parseExpr msgTag) rest
             (out ++ [mkStructField (outputKey msgTag nm tag) nm
                        (Ptr s' nilElem)]) (S s').
Proof.
  intros x s s' Hx.
  assert (Hp : parseExpr msgTag (StarExpr x) s = Done (Ptr s' nilElem) (S s')).
  { rewrite parseExpr_StarExpr. now rewrite (bind_Done _ _ _ _ _ Hx). }
  split; [exact Hp|]. split; [reflexivity|].
  intros nm tag rest out Ht. cbn [for_fields].
  apply bind_Done. rewrite field_step_single.
  now apply tagged_field_kept.
Qed.

End ElementBuilder.

(** C2, as the claim states it, fails: uint8 is the 8-bit unsigned
    kind, and a sequence of uint8 builds to a Sequence of the uint8
    base element. *)
Lemma byte_sequence_uint8_counterexample :
  identBase "uint8" = Uint8
  /\ parseExpr exampleTag (ArrayType None (Ident "uint8")) 0
     = Done (Slice 1 (BaseElem 0 Uint8 "")) 2.
Proof. split; reflexivity. Qed.

(** C5, as the claim states it, fails: chan int builds to nil, and a
    sequence of chan int builds to a Sequence that is not nil. *)
Lemma generic_sequence_unsupported_inner_counterexample :
  parseExpr exampleTag chanInt 0 = Done nilElem 0
  /\ parseExpr exampleTag (ArrayType None chanInt) 0
     = Done (Slice 0 nilElem) 1
  /\ isNil (Slice 0 nilElem) = false.
Proof. repeat split; reflexivity. Qed.

Lemma generic_sequence_wraps_inner_witness :
  isByteIdent chanInt = false
  /\ parseExpr exampleTag (ArrayType None chanInt) 0 = Done (Slice 0 nilElem) 1.
Proof.
  split; [reflexivity|].
  apply (generic_sequence_wraps_inner exampleTag None chanInt 0);
    reflexivity.
Defined.

Lemma pointer_to_unsupported_survives_witness :
  parseExpr exampleTag chanInt 0 = Done nilElem 0
  /\ parseExpr exampleTag (StarExpr chanInt) 0 = Done (Ptr 0 nilElem) 1
  /\ for_fields exampleTag (parseExpr exampleTag)
       [mkField ["P"] (StarExpr chanInt) None] [] 0
     = Done [mkStructField "P" "P" (Ptr 0 nilElem)] 1.
Proof.
  split; [reflexivity|].
  destruct (pointer_to_unsupported_survives exampleTag chanInt 0 0)
    as (Hp & _ & Hf); [reflexivity|].
  split; [exact Hp|].
  apply (Hf "P" None [] []). simpl. discriminate.
Defined.

(** ** Embedded fields *)

(** C9.  For the type of an embedded field, a type name that may be
    qualified, under one star or none, the source name is the name the
    specification derives by unwrapping at most one level of
    indirection: the identifier itself for a bare identifier and for
    a pointer to one, and, when the type is not a bare identifier
    under at most one star, no derived name but the empty string,
    under which the field goes on through the tag and the type like
    any other. *)
Theorem embedded_field_source_name :
  forall msgTag f,
    embeddedFieldType f = true ->
    embedded f = specEmbeddedName f
    /\ (forall name, f = Ident name \/ f = StarExpr (Ident name) ->
                     embedded f = name)
    /\ (embedded_spec f = None -> embedded f = "")
    /\ forall tag out,
         field_step msgTag (parseExpr msgTag) (mkField [] f tag) out
         = tagged_field msgTag (parseExpr msgTag) (specEmbeddedName f)
             f tag out.
Proof.
  intros msgTag f Hf.
  assert (Hname : embedded f = specEmbeddedName f).
  { unfold specEmbeddedName.
    destruct f; try discriminate; try reflexivity.
    cbn [embeddedFieldType] in Hf.
    destruct f; try discriminate; reflexivity. }
  split; [exact Hname|]. split; [|split].
  - intros name [->| ->]; reflexivity.
  - intro Hnone. rewrite Hname. unfold specEmbeddedName. now rewrite Hnone.
  - intros tag out. rewrite field_step_embedded. now rewrite Hname.
Qed.

Lemma embedded_field_source_name_witness :
  embedded (StarExpr (Ident "Base")) = "Base"
  /\ embedded (StarExpr pkgT) = "".
Proof.
  split.
  - destruct (embedded_field_source_name exampleTag (StarExpr (Ident "Base"))
                eq_refl) as (_ & Hone & _).
    apply Hone. now right.
  - destruct (embedded_field_source_name exampleTag (StarExpr pkgT) eq_refl)
      as (_ & _ & Hnone & _).
    apply Hnone. reflexivity.
Defined.

(** ** Tags *)

Section Tags.

Variable msgTag : string -> string.

(** The tag of an entry with one name or none, by the value the
    lookup returns for it, whatever the lookup: when the value of the
    recognized key of its tag is the exclusion marker, the loop goes on
    with the next entry from the same field list and the same
    allocation state, so nothing is appended and nothing is built.
    Otherwise, when its type builds to a non-nil element, the field
    appended has the source name of the entry and the output key;
    the output key is the source name when the tag is absent or the
    value is empty, and the value when it is not empty. *)
Lemma tag_resolution_by_lookup :
  forall field rest out s,
    length (Names field) <= 1 ->
    (tagValue msgTag (Tag field) = "-" ->
     for_fields msgTag (parseExpr msgTag) (field :: rest) out s
     = for_fields msgTag (parseExpr msgTag) rest out s)
    /\ (forall e s',
          tagValue msgTag (Tag field) <> "-" ->
          parseExpr msgTag (Type_ field) s = Done e s' ->
          isNil e = false ->
          for_fields msgTag (parseExpr msgTag) (field :: rest) out s
          = for_fields msgTag (parseExpr msgTag) rest
              (out ++ [mkStructField
                         (outputKey msgTag (sourceName field) (Tag field))
                         (sourceName field) e]) s')
    /\ (Tag field = None ->
        outputKey msgTag (sourceName field) (Tag field) = sourceName field)
    /\ (tagValue msgTag (Tag field) = "" ->
        outputKey msgTag (sourceName field) (Tag field) = sourceName field)
    /\ (tagValue msgTag (Tag field) <> "" ->
        outputKey msgTag (sourceName field) (Tag field)
        = tagValue msgTag (Tag field)).
Proof.
  intros field rest out s Hlen. repeat split.
  - intro Ht. cbn [for_fields]. apply bind_Done.
    rewrite (field_step_sourceName msgTag field out Hlen).
    now apply tagged_field_excluded.
  - intros e s' Ht He Hn. cbn [for_fields]. apply bind_Done.
    rewrite (field_step_sourceName msgTag field out Hlen).
    now apply tagged_field_kept.
  - intro Hnone. unfold outputKey. now rewrite Hnone.
  - intro Hempty. unfold outputKey. now rewrite Hempty.
  - intro Hne. unfold outputKey.
    destruct (String.eqb_spec (tagValue msgTag (Tag field)) "") as [E|_];
      [contradiction|reflexivity].
Qed.

End Tags.

Lemma tag_resolution_by_lookup_example :
  for_fields exampleTag (parseExpr exampleTag)
    [mkField ["Skip"] (Ident "int") (Some tagDash);
     mkField ["Age"] (Ident "int") (Some tagN)] [] 0
  = for_fields exampleTag (parseExpr exampleTag)
      [mkField ["Age"] (Ident "int") (Some tagN)] [] 0
  /\ for_fields exampleTag (parseExpr exampleTag)
       [mkField ["Age"] (Ident "int") (Some tagN)] [] 0
     = Done [mkStructField "n" "Age" (BaseElem 0 Int "")] 1.
Proof.
  split.
  - apply (tag_resolution_by_lookup exampleTag
             (mkField ["Skip"] (Ident "int") (Some tagDash))
             [mkField ["Age"] (Ident "int") (Some tagN)] [] 0).
    + simpl. lia.
    + reflexivity.
  - destruct (tag_resolution_by_lookup exampleTag
                (mkField ["Age"] (Ident "int") (Some tagN)) [] [] 0)
      as (_ & Hk & _); [simpl; lia|].
    apply (Hk (BaseElem 0 Int "") 1).
    + vm_compute. discriminate.
    + reflexivity.
    + reflexivity.
Defined.

(** ** The tag as the field carries it *)

Lemma trimRight_closing content :
  noBackquote content = true ->
  trimRight backquote (content ++ String backquote EmptyString) = content.
Proof.
  induction content as [|a r IH]; intro H; [reflexivity|].
  cbn [noBackquote] in H. apply andb_prop in H as [Ha Hr].
  cbn [append trimRight]. rewrite (IH Hr).
  destruct r; [|reflexivity].
  apply negb_true_iff in Ha. now rewrite Ha.
Qed.

Lemma Trim_rawLiteral content :
  noBackquote content = true ->
  Trim (rawLiteral content) backquote = content.
Proof.
  intro H. unfold Trim, rawLiteral. cbn [trimRight].
  rewrite (trimRight_closing content H).
  destruct content as [|a r]; [reflexivity|].
  cbn [trimLeft]. rewrite Ascii.eqb_refl. cbn [trimLeft].
  cbn [noBackquote] in H. apply andb_prop in H as [Ha _].
  apply negb_true_iff in Ha. now rewrite Ha.
Qed.

Lemma length_drop n : forall s,
  String.length (drop n s) = String.length s - n.
Proof.
  induction n as [|n IH]; intros [|a r]; cbn [drop String.length];
    try lia. apply IH.
Qed.

Lemma length_skipSpaces tag :
  String.length (skipSpaces tag) <= String.length tag.
Proof.
  induction tag as [|a r IH]; cbn [skipSpaces String.length]; [lia|].
  destruct (Ascii.eqb a space); cbn [String.length]; lia.
Qed.

(** The rounds allowed to the loop of Lookup are enough: more rounds
    give the same result. *)
Lemma lookupRounds_enough Unquote key : forall n m tag,
  String.length tag < n -> String.length tag < m ->
  lookupRounds Unquote n tag key = lookupRounds Unquote m tag key.
Proof.
  induction n as [|n IH]; intros [|m] tag Hn Hm; try lia.
  cbn [lookupRounds].
  pose proof (length_skipSpaces tag) as Hs.
  set (t := skipSpaces tag) in *.
  destruct (t =? ""); [reflexivity|].
  destruct ((scanKey t =? 0)%nat || (String.length t <=? scanKey t + 1)%nat
            || negb (byteIs t (scanKey t) colon)
            || negb (byteIs t (scanKey t + 1) dq)); [reflexivity|].
  set (t' := drop (scanKey t + 1) t).
  assert (Ht' : String.length t' <= String.length t - 1).
  { unfold t'. rewrite length_drop. lia. }
  destruct (String.length t' <=? scanValue t')%nat eqn:Hlen; [reflexivity|].
  apply Nat.leb_gt in Hlen.
  destruct (key =? take (scanKey t) t); [reflexivity|].
  apply IH; rewrite length_drop; lia.
Qed.

Section RawTags.

Variable Unquote : string -> option string.

Lemma goMsgTag_rawLiteral content :
  noBackquote content = true ->
  goMsgTag Unquote (rawLiteral content) = Get Unquote content "msg".
Proof. intro H. unfold goMsgTag. now rewrite Trim_rawLiteral. Qed.

(** C8, as amended.  For an entry with one name or none whose tag is
    a raw string literal: when the text between the backquotes
    defines the key msg with the value "-", the loop goes on with the
    next entry from the same field list and the same allocation state,
    so nothing is appended and nothing is built; otherwise, when the
    type builds to a non-nil element, the field appended has the
    source name of the entry, and as output key the source name when
    the text defines no value or the empty value for msg, and the
    value when it is not empty.  An entry without a tag gets the source
    name as output key. *)
Theorem raw_tag_resolution :
  forall field rest out s,
    length (Names field) <= 1 ->
    (forall content,
        noBackquote content = true ->
        Tag field = Some (rawLiteral content) ->
        (Get Unquote content "msg" = "-" ->
         for_fields (goMsgTag Unquote) (parseExpr (goMsgTag Unquote))
           (field :: rest) out s
         = for_fields (goMsgTag Unquote) (parseExpr (goMsgTag Unquote))
             rest out s)
        /\ (forall e s',
              Get Unquote content "msg" <> "-" ->
              parseExpr (goMsgTag Unquote) (Type_ field) s = Done e s' ->
              isNil e = false ->
              for_fields (goMsgTag Unquote) (parseExpr (goMsgTag Unquote))
                (field :: rest) out s
              = for_fields (goMsgTag Unquote) (parseExpr (goMsgTag Unquote))
                  rest
                  (out ++ [mkStructField
                             (if Get Unquote content "msg" =? ""
                              then sourceName field
                              else Get Unquote content "msg")
                             (sourceName field) e]) s'))
    /\ (Tag field = None ->
        forall e s',
          parseExpr (goMsgTag Unquote) (Type_ field) s = Done e s' ->
          isNil e = false ->
          for_fields (goMsgTag Unquote) (parseExpr (goMsgTag Unquote))
            (field :: rest) out s
          = for_fields (goMsgTag Unquote) (parseExpr (goMsgTag Unquote))
              rest
              (out ++ [mkStructField (sourceName field) (sourceName field) e])
              s').
Proof.
  intros field rest out s Hlen. split.
  - intros content Hc Htag.
    assert (Hv : tagValue (goMsgTag Unquote) (Tag field)
                 = Get Unquote content "msg").
    { rewrite Htag. cbn [tagValue]. now apply goMsgTag_rawLiteral. }
    split.
    + intro Hdash. cbn [for_fields]. apply bind_Done.
      rewrite (field_step_sourceName _ field out Hlen).
      apply tagged_field_excluded. now rewrite Hv.
    + intros e s' Hdash He Hn. cbn [for_fields]. apply bind_Done.
      rewrite (field_step_sourceName _ field out Hlen).
      rewrite (tagged_field_kept (goMsgTag Unquote) (sourceName field)
                 (Type_ field) (Tag field) out s e s');
        [|now rewrite Hv|exact He|exact Hn].
      unfold outputKey. now rewrite Hv.
  - intros Htag e s' He Hn. cbn [for_fields]. apply bind_Done.
    rewrite (field_step_sourceName _ field out Hlen).
    rewrite (tagged_field_kept (goMsgTag Unquote) (sourceName field)
               (Type_ field) (Tag field) out s e s');
      [|rewrite Htag; cbn; discriminate|exact He|exact Hn].
    unfold outputKey. now rewrite Htag.
Qed.

End RawTags.

(** C8, as the claim states it, fails for a tag written as an
    interpreted string literal: the literal stands for the tag
    msg:"-", which defines the key msg with the value "-", and the
    field is kept, under its own name as key, because line 136 trims
    backquotes only and Get finds no key in a text that begins with a
    double quote. *)
Lemma interpreted_tag_is_not_read_counterexample :
  exUnquote tagDashInterpreted = Some tagDashContent
  /\ Get exUnquote tagDashContent "msg" = "-"
  /\ goMsgTag exUnquote tagDashInterpreted = ""
  /\ for_fields (goMsgTag exUnquote) (parseExpr (goMsgTag exUnquote))
       [mkField ["A"] (Ident "int") (Some tagDashInterpreted)] [] 0
     = Done [mkStructField "A" "A" (BaseElem 0 Int "")] 1.
Proof. repeat split; reflexivity. Qed.

Lemma raw_tag_resolution_witness :
  for_fields (goMsgTag exUnquote) (parseExpr (goMsgTag exUnquote))
    [mkField ["A"] (Ident "int") (Some tagDashRaw);
     mkField ["B"] (Ident "int") None] [] 0
  = Done [mkStructField "B" "B" (BaseElem 0 Int "")] 1.
Proof.
  destruct (raw_tag_resolution exUnquote
              (mkField ["A"] (Ident "int") (Some tagDashRaw))
              [mkField ["B"] (Ident "int") None] [] 0)
    as [Hraw _]; [simpl; lia|].
  destruct (Hraw tagDashContent eq_refl eq_refl) as [Hdash _].
  rewrite (Hdash eq_refl).
  destruct (raw_tag_resolution exUnquote
              (mkField ["B"] (Ident "int") None) [] [] 0)
    as [_ Hnone]; [simpl; lia|].
  apply (Hnone eq_refl (BaseElem 0 Int "") 1); reflexivity.
Defined.

(** ** Several names for one type *)




Section MultipleNames.

Variable msgTag : string -> string.

Lemma names_loop_length ty names :
  forall out s out' s',
    names_loop (parseExpr msgTag) ty names out s = Done out' s' ->
    length out' = length out + length names.
Proof.
  induction names as [|nm rest IH]; intros out s out' s' H.
  - injection H as <- _. simpl. lia.
  - cbn [names_loop] in H. apply bind_inv in H as (e & t & _ & H).
    apply IH in H. rewrite H, length_app. simpl. lia.
Qed.


(** C6, at the failing inputs.  For the entry A, B with the type
    map[string]interface{} the iteration produces no field: the first
    call of the builder panics on the type assertion of line 184, and
    with it parseFieldList.  For the entry A, B with the type chan int
    it produces the two fields A and B in order, with name and key,
    and neither has an Element: both hold the nil the builder
    returned, appended without the nil check. *)
Theorem multi_name_entry_meets_the_builder_defects :
  forall out s,
    field_step msgTag (parseExpr msgTag)
      (mkField ["A"; "B"] dynMap None) out s = Panicked
    /\ parseFieldList msgTag (Some [mkField ["A"; "B"] dynMap None]) s
       = Panicked
    /\ field_step msgTag (parseExpr msgTag)
         (mkField ["A"; "B"] chanInt None) out s
       = Done (out ++ [mkStructField "A" "A" nilElem;
                       mkStructField "B" "B" nilElem]) s.
Proof.
  intros out s. split; [reflexivity|]. split; [reflexivity|].
  cbn. unfold bind, ret. cbn. now rewrite <- app_assoc.
Qed.

End MultipleNames.

(** ** Accepted declarations *)

(** C3, at the failing input.  For type T struct { A, B chan int }
    GenElem returns a declaration whose two fields hold the nil
    element: the loop over the names appends what the builder returns
    without the nil check.  The path for one name has the check: of
    struct { A chan int; B int } only B is left. *)
Theorem multi_name_unsupported_type_keeps_nil_fields :
  forall msgTag s,
    GenElem msgTag specChans s
    = Done (Ptr (S s)
              (Struct s "T" [mkStructField "A" "A" nilElem;
                             mkStructField "B" "B" nilElem]))
           (S (S s))
    /\ elems_loop msgTag [specChans] [] s
       = Done [Ptr (S s)
                 (Struct s "T" [mkStructField "A" "A" nilElem;
                                mkStructField "B" "B" nilElem])]
              (S (S s))
    /\ GenElem msgTag specChanSingle s
       = Done (Ptr (S (S s))
                 (Struct (S s) "T" [mkStructField "B" "B" (BaseElem s Int "")]))
              (S (S (S s))).
Proof. intros msgTag s. repeat split; reflexivity. Qed.

Section Accepted.

Variable msgTag : string -> string.

Lemma passesType_Done field s e t :
  parseExpr msgTag (Type_ field) s = Done e t ->
  passesType msgTag field = negb (isNil e).
Proof.
  intro H. unfold passesType.
  destruct (parseExpr_relocate msgTag _ _ _ _ 0 H) as (e' & t' & -> & Hn).
  now rewrite Hn.
Qed.

Lemma tagged_field_length name field out s out' s' :
  length (Names field) <= 1 ->
  tagged_field msgTag (parseExpr msgTag) name (Type_ field) (Tag field) out s
  = Done out' s' ->
  length out'
  = length out + (if passesTag msgTag field && passesType msgTag field
                  then 1 else 0).
Proof.
  intros Hlen H. unfold passesTag.
  destruct (String.eqb_spec (tagValue msgTag (Tag field)) "-") as [E|E].
  - rewrite (tagged_field_excluded msgTag name _ _ out s E) in H.
    injection H as <- _. simpl. lia.
  - cbn [negb andb].
    destruct (parseExpr msgTag (Type_ field) s) as [e t|] eqn:He.
    + rewrite (passesType_Done field s e t He).
      destruct e eqn:Ee.
      * rewrite (tagged_field_dropped msgTag name _ _ out s t He E) in H.
        injection H as <- _. simpl. lia.
      * rewrite (tagged_field_kept msgTag name _ _ out s _ t E He eq_refl) in H.
        injection H as <- _. rewrite length_app. reflexivity.
      * rewrite (tagged_field_kept msgTag name _ _ out s _ t E He eq_refl) in H.
        injection H as <- _. rewrite length_app. reflexivity.
      * rewrite (tagged_field_kept msgTag name _ _ out s _ t E He eq_refl) in H.
        injection H as <- _. rewrite length_app. reflexivity.
      * rewrite (tagged_field_kept msgTag name _ _ out s _ t E He eq_refl) in H.
        injection H as <- _. rewrite length_app. reflexivity.
    + rewrite (tagged_field_panics msgTag name _ _ out s He E) in H.
      discriminate.
Qed.

Lemma field_step_length field out s out' s' :
  multiSupported msgTag field ->
  field_step msgTag (parseExpr msgTag) field out s = Done out' s' ->
  length out'
  = length out
    + (if (isMulti field || passesTag msgTag field) && passesType msgTag field
       then expansion field else 0).
Proof.
  intros Hm H. destruct field as [[|nm [|nm' rest]] ty tag].
  - rewrite field_step_embedded in H.
    apply (tagged_field_length _ (mkField [] ty tag)) in H;
      [exact H|simpl; lia].
  - rewrite field_step_single in H.
    apply (tagged_field_length _ (mkField [nm] ty tag)) in H;
      [exact H|simpl; lia].
  - rewrite (Hm eq_refl). cbn [isMulti Names length Nat.ltb Nat.leb orb andb].
    apply names_loop_length in H. exact H.
Qed.

Lemma for_fields_length l :
  Forall (multiSupported msgTag) l ->
  forall out s out' s',
    for_fields msgTag (parseExpr msgTag) l out s = Done out' s' ->
    length out' = length out + eligibleCount msgTag l.
Proof.
  induction 1 as [|field rest Hf _ IH]; intros out s out' s' H.
  - injection H as <- _. simpl. lia.
  - cbn [for_fields] in H. apply bind_inv in H as (o & t & Ho & H).
    apply (field_step_length field _ _ _ _ Hf) in Ho. apply IH in H.
    cbn [eligibleCount]. lia.
Qed.

(** C4, as amended.  The root of an accepted declaration is a new
    Optional around a new Aggregate that carries the name of the
    declaration and the field list parseFieldList returns, and the list
    is not empty.  When every multi-name entry has a type the builder
    supports, the length of the list is the number of entries after
    multi-name expansion that pass the type check and, if they have
    one name or none, the tag check as well. *)
Theorem accepted_declaration_shape :
  forall ts s el s',
    GenElem msgTag ts s = Done el s' ->
    isNil el = false ->
    exists fl fs t,
      SpecType ts = StructType fl
      /\ parseFieldList msgTag fl s = Done fs t
      /\ el = Ptr (S t) (Struct t (SpecName ts) fs)
      /\ s' = S (S t)
      /\ fs <> []
      /\ (Forall (multiSupported msgTag) (fieldsOf fl) ->
          length fs = eligibleCount msgTag (fieldsOf fl)).
Proof.
  intros ts s el s' H Hn. unfold GenElem in H.
  destruct (SpecType ts) as [| | | | | | |fl| | | |] eqn:Ety;
    try (injection H as <- _; discriminate).
  apply bind_inv in H as (fs & t & Hfs & H). unfold bind, new, ret in H.
  exists fl, fs, t. destruct fs as [|sf fs].
  - injection H as <- _. discriminate.
  - injection H as <- <-. repeat split; auto; [discriminate|].
    intro Hm. unfold parseFieldList, parseFieldList_of in Hfs.
    destruct fl as [l|]; [|discriminate].
    destruct (NumFields l =? 0)%nat; [discriminate|].
    apply (for_fields_length l Hm) in Hfs. exact Hfs.
Qed.

End Accepted.

(** C4, as the claim states it, fails: of
    type T struct { A, B int `msg:"-"` } no entry passes the tag
    check, and the accepted declaration has the two fields A and B. *)
Lemma accepted_declaration_count_counterexample :
  GenElem exampleTag specDashed 0
  = Done (Ptr 3 (Struct 2 "T" [mkStructField "A" "A" (BaseElem 0 Int "");
                               mkStructField "B" "B" (BaseElem 1 Int "")])) 4
  /\ claimedCount exampleTag
       [mkField ["A"; "B"] (Ident "int") (Some tagDash)] = 0.
Proof. split; reflexivity. Qed.

Lemma accepted_declaration_shape_witness :
  exists fs t,
    parseFieldList exampleTag
      (Some [mkField ["A"; "B"] (Ident "int") (Some tagDash)]) 0 = Done fs t
    /\ length fs = 2.
Proof.
  destruct (accepted_declaration_shape exampleTag specDashed 0
              (Ptr 3 (Struct 2 "T" [mkStructField "A" "A" (BaseElem 0 Int "");
                                    mkStructField "B" "B" (BaseElem 1 Int "")]))
              4 eq_refl eq_refl)
    as (fl & fs & t & Hty & Hfs & _ & _ & _ & Hlen).
  injection Hty as <-. exists fs, t. split; [exact Hfs|].
  apply Hlen. repeat constructor.
Defined.

(** ** Files without exports *)

Section Load.

Variable msgTag : string -> string.
Variable ParseFile : string -> ParseResult.
Variable FileExports : File -> File * bool.

Lemma GetElems_error filename f e s :
  GetAST ParseFile FileExports filename = (f, Some e) ->
  GetElems msgTag ParseFile FileExports filename s = Done ([], Some e) s.
Proof. unfold GetElems. now intros ->. Qed.

Lemma GetElems_no_error filename f s out e s' :
  GetAST ParseFile FileExports filename = (Some f, None) ->
  GetElems msgTag ParseFile FileExports filename s <> Done (out, Some e) s'.
Proof.
  unfold GetElems. intros ->. destruct (GetTypeSpecs f) as [|spec specs].
  - discriminate.
  - unfold bind.
    destruct (elems_loop msgTag (spec :: specs) [] s); discriminate.
Qed.

(** C7.  For a file that parses: when ast.FileExports reports that no
    exported declaration is left, GetAST returns no tree and the error
    no exports in file, and GetElems returns that error with an empty
    list, without a call of GenElem (the allocation state is what it
    was); when it reports that one is left, GetAST returns the trimmed
    tree and no error, and GetElems returns no error. *)
Theorem no_exports_aborts_file :
  forall filename f,
    ParseFile filename = parsed f ->
    (snd (FileExports f) = false ->
     GetAST ParseFile FileExports filename
     = (None, Some (errorsNew "no exports in file"))
     /\ forall s,
          GetElems msgTag ParseFile FileExports filename s
          = Done ([], Some (errorsNew "no exports in file")) s)
    /\ (snd (FileExports f) = true ->
        GetAST ParseFile FileExports filename
        = (Some (fst (FileExports f)), None)
        /\ forall s out e s',
             GetElems msgTag ParseFile FileExports filename s
             <> Done (out, Some e) s').
Proof.
  intros filename f Hparse.
  assert (Hast : GetAST ParseFile FileExports filename
                 = if negb (snd (FileExports f))
                   then (None, Some (errorsNew "no exports in file"))
                   else (Some (fst (FileExports f)), None)).
  { unfold GetAST. rewrite Hparse. now destruct (FileExports f). }
  split; intro Hex; rewrite Hex in Hast; cbn [negb] in Hast.
  - split; [exact Hast|]. intro s. now apply GetElems_error with None.
  - split; [exact Hast|]. intros s out e s'.
    now apply GetElems_no_error with (fst (FileExports f)).
Qed.

End Load.

Lemma no_exports_aborts_file_witness :
  (GetAST exampleParse exampleExports "t.go"
   = (None, Some (errorsNew "no exports in file"))
   /\ GetElems exampleTag exampleParse exampleExports "t.go" 0
      = Done ([], Some (errorsNew "no exports in file")) 0)
  /\ (GetAST exportedParse exportedExports "t.go" = (Some exportedOnly, None)
      /\ forall out e s',
           GetElems exampleTag exportedParse exportedExports "t.go" 0
           <> Done (out, Some e) s').
Proof.
  split.
  - destruct (no_exports_aborts_file exampleTag exampleParse exampleExports
                "t.go" unexportedOnly eq_refl) as [Hnone _].
    destruct (Hnone eq_refl) as [Hast Helems].
    split; [exact Hast|exact (Helems 0)].
  - destruct (no_exports_aborts_file exampleTag exportedParse exportedExports
                "t.go" exportedOnly eq_refl) as [_ Hsome].
    destruct (Hsome eq_refl) as [Hast Helems].
    split; [exact Hast|exact (Helems 0)].
Defined.

(** * Further properties of parse/getast.go *)

(** ** GetTypeSpecs *)

Lemma specs_loop_app specs : forall out,
  specs_loop specs out = out ++ typeSpecsOf (GenDecl specs).
Proof.
  induction specs as [|sp rest IH]; intro out; cbn.
  - now rewrite app_nil_r.
  - destruct sp; rewrite IH; [reflexivity|reflexivity|].
    cbn. now rewrite <- app_assoc.
Qed.

Lemma decls_loop_app decls : forall out,
  decls_loop decls out = out ++ flat_map typeSpecsOf decls.
Proof.
  induction decls as [|d rest IH]; intro out; cbn [decls_loop flat_map].
  - now rewrite app_nil_r.
  - destruct d; rewrite IH; [reflexivity| |reflexivity].
    rewrite specs_loop_app. now rewrite <- app_assoc.
Qed.

(** X1.  GetTypeSpecs returns the type specs of the general
    declarations of the file, all of them and nothing else, in the
    order of the declarations and of the specs in each; function
    declarations, bad declarations, import specs and value specs leave
    nothing.  So the result for two lists of declarations one after the
    other is the two results one after the other. *)
Theorem GetTypeSpecs_collects_in_order :
  (forall f, GetTypeSpecs f = flat_map typeSpecsOf (Decls f))
  /\ (forall f ts,
        In ts (GetTypeSpecs f) <->
        exists specs, In (GenDecl specs) (Decls f) /\ In (ATypeSpec ts) specs)
  /\ (forall ds1 ds2,
        GetTypeSpecs (mkFile (ds1 ++ ds2))
        = GetTypeSpecs (mkFile ds1) ++ GetTypeSpecs (mkFile ds2)).
Proof.
  assert (Hflat : forall g, GetTypeSpecs g = flat_map typeSpecsOf (Decls g)).
  { intro g. unfold GetTypeSpecs. now rewrite decls_loop_app. }
  split; [apply Hflat|]. split.
  - intros f ts. rewrite Hflat, in_flat_map. split.
    + intros (d & Hd & Hts). destruct d as [|specs|]; try contradiction.
      exists specs. split; [exact Hd|].
      cbn in Hts. apply in_flat_map in Hts as (sp & Hsp & Hin).
      destruct sp; try contradiction. destruct Hin as [->|[]]. exact Hsp.
    + intros (specs & Hd & Hts). exists (GenDecl specs). split; [exact Hd|].
      cbn. apply in_flat_map. exists (ATypeSpec ts). split; [exact Hts|].
      now left.
  - intros ds1 ds2. rewrite !Hflat. cbn [Decls]. apply flat_map_app.
Qed.

(** ** Errors of the parser *)

(** X2.  When the parser returns an error, GetAST hands on the error
    with whatever tree came with it and does not look for exports, and
    GetElems returns the error with an empty list: no declaration is
    looked at and nothing is allocated. *)
Theorem parse_error_is_returned :
  forall msgTag ParseFile FileExports filename f err,
    ParseFile filename = failed f err ->
    GetAST ParseFile FileExports filename = (f, Some err)
    /\ forall s,
         GetElems msgTag ParseFile FileExports filename s
         = Done ([], Some err) s.
Proof.
  intros msgTag ParseFile FileExports filename f err Hparse.
  assert (Hast : GetAST ParseFile FileExports filename = (f, Some err)).
  { unfold GetAST. now rewrite Hparse. }
  split; [exact Hast|]. intro s. unfold GetElems. now rewrite Hast.
Qed.

Lemma parse_error_is_returned_witness :
  GetElems exampleTag failingParse exportedExports "t.go" 0
  = Done ([], Some (parserError "expected declaration")) 0.
Proof.
  apply (parse_error_is_returned exampleTag failingParse exportedExports
           "t.go" (Some unexportedOnly) (parserError "expected declaration")).
  reflexivity.
Defined.

(** ** What the builder returns nil for *)

Lemma parseExpr_nil msgTag e s s' :
  parseExpr msgTag e s = Done nilElem s' ->
  s' = s /\ alwaysBuilds e = false.
Proof.
  intro H.
  destruct e; try (injection H as <-; now split).
  - discriminate.
  - rewrite parseExpr_StarExpr in H. apply bind_inv in H as (v & t & _ & H).
    discriminate.
  - destruct (isByteIdent e) eqn:Hb.
    + apply isByteIdent_true in Hb. subst e. discriminate.
    + rewrite (parseExpr_generic_slice msgTag Len e Hb) in H.
      apply bind_inv in H as (v & t & _ & H). discriminate.
  - rewrite parseExpr_StructType in H. apply bind_inv in H as (v & t & _ & H).
    discriminate.
  - cbn [parseExpr] in H.
    destruct e1; try (injection H as <-; now split).
    destruct (Name =? "string"); [|injection H as <-; now split].
    destruct e2; try discriminate.
    destruct (Name0 =? "string"); [discriminate|].
    destruct (Name0 =? "interface{}"); [discriminate|].
    injection H as <-. now split.
Qed.

(** X3.  For an identifier, a pointer type, an array or slice type
    and a struct type the builder never returns nil; when it returns
    nil, for a mapping type or one of the other kinds of expression,
    it has allocated nothing. *)
Theorem unsupported_allocates_nothing :
  forall msgTag e s el s',
    parseExpr msgTag e s = Done el s' ->
    isNil el = true ->
    s' = s /\ alwaysBuilds e = false.
Proof.
  intros msgTag e s el s' H Hn. destruct el; try discriminate.
  exact (parseExpr_nil msgTag e s s' H).
Qed.

Lemma unsupported_allocates_nothing_witness :
  parseExpr exampleTag (MapType (Ident "int") (Ident "string")) 5
  = Done nilElem 5
  /\ alwaysBuilds (MapType (Ident "int") (Ident "string")) = false.
Proof.
  split; [reflexivity|].
  apply (unsupported_allocates_nothing exampleTag
           (MapType (Ident "int") (Ident "string")) 5 nilElem 5);
    reflexivity.
Defined.

(** ** Where the builder can panic *)

Section Returns.

Variable msgTag : string -> string.

Lemma names_loop_returns ty names :
  returns msgTag ty ->
  forall out s, exists out' s',
    names_loop (parseExpr msgTag) ty names out s = Done out' s'.
Proof.
  intro Hty. induction names as [|nm rest IH]; intros out s.
  - now exists out, s.
  - destruct (Hty s) as (e & t & He).
    destruct (IH (out ++ [mkStructField nm nm e]) t) as (out' & s' & H).
    exists out', s'. cbn [names_loop]. now rewrite (bind_Done _ _ _ _ _ He).
Qed.

Lemma tagged_field_returns name ty tag :
  returns msgTag ty ->
  forall out s, exists out' s',
    tagged_field msgTag (parseExpr msgTag) name ty tag out s = Done out' s'.
Proof.
  intros Hty out s.
  destruct (String.eqb_spec (tagValue msgTag tag) "-") as [E|E].
  - exists out, s. now apply tagged_field_excluded.
  - destruct (Hty s) as (e & t & He). destruct (isNil e) eqn:Hn.
    + exists out, t. destruct e; try discriminate.
      now apply tagged_field_dropped.
    + exists (out ++ [mkStructField (outputKey msgTag name tag) name e]), t.
      now apply tagged_field_kept.
Qed.

Lemma field_step_returns field :
  returns msgTag (Type_ field) ->
  forall out s, exists out' s',
    field_step msgTag (parseExpr msgTag) field out s = Done out' s'.
Proof.
  destruct field as [[|nm [|nm' rest]] ty tag]; cbn [Type_]; intro Hty.
  - now apply tagged_field_returns.
  - now apply tagged_field_returns.
  - now apply names_loop_returns.
Qed.

Lemma for_fields_returns l :
  Forall (fun f => returns msgTag (Type_ f)) l ->
  forall out s, exists out' s',
    for_fields msgTag (parseExpr msgTag) l out s = Done out' s'.
Proof.
  induction 1 as [|field rest Hf _ IH]; intros out s.
  - now exists out, s.
  - destruct (field_step_returns field Hf out s) as (o & t & Ho).
    destruct (IH o t) as (out' & s' & H). exists out', s'.
    cbn [for_fields]. now rewrite (bind_Done _ _ _ _ _ Ho).
Qed.

Lemma parseFieldList_returns fl :
  Forall (fun f => returns msgTag (Type_ f)) (fieldsOf fl) ->
  forall s, exists fs s', parseFieldList msgTag fl s = Done fs s'.
Proof.
  intros Hl s. unfold parseFieldList, parseFieldList_of.
  destruct fl as [l|]; [|now exists [], s].
  destruct (NumFields l =? 0)%nat; [now exists [], s|].
  now apply for_fields_returns.
Qed.

Lemma valuesAreIdents_fields l :
  valuesAreIdents (StructType (Some l)) = true ->
  Forall (fun f => valuesAreIdents (Type_ f) = true) l.
Proof.
  cbn [valuesAreIdents]. intro H. apply Forall_forall. intros f Hf.
  rewrite forallb_forall in H. specialize (H f Hf). now destruct f.
Qed.

Lemma parseExpr_returns :
  forall e, valuesAreIdents e = true -> returns msgTag e.
Proof.
  induction e as [x IH|len elt IH|l IH|e He] using Expr_nested_ind;
    intros Hsafe s.
  - destruct (IH Hsafe s) as (v & t & Hv). eexists _, _.
    rewrite parseExpr_StarExpr, (bind_Done _ _ _ _ _ Hv). reflexivity.
  - destruct (isByteIdent elt) eqn:Hb.
    + apply isByteIdent_true in Hb. subst elt. eexists _, _. reflexivity.
    + destruct (IH Hsafe s) as (v & t & Hv). eexists _, _.
      rewrite (parseExpr_generic_slice msgTag len elt Hb),
        (bind_Done _ _ _ _ _ Hv). reflexivity.
  - assert (Hl : Forall (fun f => returns msgTag (Type_ f)) l).
    { apply valuesAreIdents_fields in Hsafe. rewrite Forall_forall in *.
      intros f Hf. apply (IH f Hf). now apply Hsafe. }
    destruct (parseFieldList_returns (Some l) Hl s) as (fs & t & Hfs).
    eexists _, _. rewrite parseExpr_StructType, (bind_Done _ _ _ _ _ Hfs).
    reflexivity.
  - destruct e; try contradiction; try (eexists _, _; reflexivity).
    + destruct Fields; [contradiction|]. eexists _, _. reflexivity.
    + cbn [parseExpr]. destruct e1; try (eexists _, _; reflexivity).
      cbn [valuesAreIdents] in Hsafe.
      destruct (Name =? "string"); [|eexists _, _; reflexivity].
      destruct e2; try discriminate.
      destruct (Name0 =? "string"); [eexists _, _; reflexivity|].
      destruct (Name0 =? "interface{}"); eexists _, _; reflexivity.
Qed.

Lemma GenElem_returns ts :
  valuesAreIdents (SpecType ts) = true ->
  forall s, exists el s', GenElem msgTag ts s = Done el s'.
Proof.
  intros Hsafe s. unfold GenElem.
  destruct (SpecType ts) as [| | | | | | |fl| | | |] eqn:Ety;
    try (now exists nilElem, s).
  assert (Hl : Forall (fun f => returns msgTag (Type_ f)) (fieldsOf fl)).
  { destruct fl as [l|]; [|constructor].
    apply valuesAreIdents_fields in Hsafe. cbn [fieldsOf].
    eapply Forall_impl; [|exact Hsafe]. intros f. apply parseExpr_returns. }
  destruct (parseFieldList_returns fl Hl s) as (fs & t & Hfs).
  rewrite (bind_Done _ _ _ _ _ Hfs). unfold bind, new, ret.
  destruct (length fs =? 0)%nat; eexists _, _; reflexivity.
Qed.

Lemma elems_loop_returns specs :
  Forall (fun ts => valuesAreIdents (SpecType ts) = true) specs ->
  forall out s, exists out' s', elems_loop msgTag specs out s = Done out' s'.
Proof.
  induction 1 as [|ts rest Hts _ IH]; intros out s.
  - now exists out, s.
  - destruct (GenElem_returns ts Hts s) as (el & t & Hel).
    cbn [elems_loop]. rewrite (bind_Done _ _ _ _ _ Hel).
    destruct (isNil el); apply IH.
Qed.

(** X4.  The builder returns, at every allocation state, for every
    type expression in which each mapping type with the key string
    that the builder comes to has an identifier as its value: the
    failed type assertion on the value of such a mapping is the only
    way of parseExpr, and of parseFieldList inside it, not to return.
    In particular an expression on which the builder panics has such a
    mapping. *)
Theorem builder_returns_without_map_value_assertion :
  forall e,
    (valuesAreIdents e = true ->
     forall s, exists el s', parseExpr msgTag e s = Done el s')
    /\ (forall s, parseExpr msgTag e s = Panicked ->
                  valuesAreIdents e = false).
Proof.
  intro e. split.
  - intros Hsafe s. now apply parseExpr_returns.
  - intros s Hp. destruct (valuesAreIdents e) eqn:Hsafe; [|reflexivity].
    destruct (parseExpr_returns e Hsafe s) as (el & s' & H).
    rewrite H in Hp. discriminate.
Qed.

End Returns.

(** ** Where GetElems panics *)

Section Panics.

Variable msgTag : string -> string.

Lemma names_loop_panics ty nm rest out s :
  (forall t, parseExpr msgTag ty t = Panicked) ->
  names_loop (parseExpr msgTag) ty (nm :: rest) out s = Panicked.
Proof. intro H. cbn [names_loop]. now apply bind_Panicked. Qed.

Lemma field_step_decides field :
  decides msgTag (Type_ field) ->
  (fieldIsBuilt msgTag field = true ->
   forall out s, exists out' s',
     field_step msgTag (parseExpr msgTag) field out s = Done out' s')
  /\ (fieldIsBuilt msgTag field = false ->
      forall out s,
        field_step msgTag (parseExpr msgTag) field out s = Panicked).
Proof.
  destruct field as [names ty tag]. unfold fieldIsBuilt.
  cbn [Names Tag Type_]. intros [Hret Hpanic].
  assert (Hone : forall name,
    ((tagValue msgTag tag =? "-") || reachedValuesAreIdents msgTag ty = true ->
     forall out s, exists out' s',
       tagged_field msgTag (parseExpr msgTag) name ty tag out s = Done out' s')
    /\ ((tagValue msgTag tag =? "-") || reachedValuesAreIdents msgTag ty = false ->
        forall out s,
          tagged_field msgTag (parseExpr msgTag) name ty tag out s = Panicked)).
  { intro name.
    destruct (String.eqb_spec (tagValue msgTag tag) "-") as [E|E];
      cbn [orb].
    - split; [|discriminate]. intros _ out s. exists out, s.
      now apply tagged_field_excluded.
    - split.
      + intro H. now apply tagged_field_returns, Hret.
      + intros H out s. apply tagged_field_panics; [now apply Hpanic|exact E]. }
  destruct names as [|nm [|nm' rest]]; cbn [skippedByTag field_step].
  - apply Hone.
  - apply Hone.
  - cbn [orb]. split.
    + intro H. now apply names_loop_returns, Hret.
    + intros H out s. now apply names_loop_panics, Hpanic.
Qed.

Lemma for_fields_decides l :
  Forall (fun f => decides msgTag (Type_ f)) l ->
  (forallb (fieldIsBuilt msgTag) l = true ->
   forall out s, exists out' s',
     for_fields msgTag (parseExpr msgTag) l out s = Done out' s')
  /\ (forallb (fieldIsBuilt msgTag) l = false ->
      forall out s,
        for_fields msgTag (parseExpr msgTag) l out s = Panicked).
Proof.
  induction 1 as [|field rest Hf _ [IHret IHpanic]]; cbn [forallb].
  - split; [|discriminate]. intros _ out s. now exists out, s.
  - destruct (field_step_decides field Hf) as [Hret Hpanic].
    destruct (fieldIsBuilt msgTag field); cbn [andb].
    + split.
      * intros Hrest out s. destruct (Hret eq_refl out s) as (o & t & Ho).
        destruct (IHret Hrest o t) as (out' & s' & H). exists out', s'.
        cbn [for_fields]. now rewrite (bind_Done _ _ _ _ _ Ho).
      * intros Hrest out s. destruct (Hret eq_refl out s) as (o & t & Ho).
        cbn [for_fields]. rewrite (bind_Done _ _ _ _ _ Ho).
        now apply IHpanic.
    + split; [discriminate|]. intros _ out s. cbn [for_fields].
      apply bind_Panicked. now apply Hpanic.
Qed.

Lemma reached_fields l :
  reachedValuesAreIdents msgTag (StructType (Some l))
  = forallb (fieldIsBuilt msgTag) l.
Proof.
  cbn [reachedValuesAreIdents].
  induction l as [|[names ty tag] rest IH]; [reflexivity|].
  cbn [forallb]. now rewrite IH.
Qed.

Lemma parseFieldList_decides l :
  Forall (fun f => decides msgTag (Type_ f)) l ->
  (forallb (fieldIsBuilt msgTag) l = true ->
   forall s, exists fs s', parseFieldList msgTag (Some l) s = Done fs s')
  /\ (forallb (fieldIsBuilt msgTag) l = false ->
      forall s, parseFieldList msgTag (Some l) s = Panicked).
Proof.
  intro Hl. destruct (for_fields_decides l Hl) as [Hret Hpanic].
  unfold parseFieldList, parseFieldList_of.
  destruct l as [|field rest].
  - split; [|discriminate]. intros _ s. now exists [], s.
  - rewrite NumFields_expansion.
    assert (Hpos : (expansion field + NumFields rest =? 0)%nat = false).
    { apply Nat.eqb_neq. unfold expansion.
      destruct (Names field); cbn [length]; lia. }
    rewrite Hpos. split.
    + intros H s. now apply Hret.
    + intros H s. now apply Hpanic.
Qed.

Lemma parseExpr_decides : forall e, decides msgTag e.
Proof.
  induction e as [x [IHr IHp]|len elt [IHr IHp]|l IH|e He]
    using Expr_nested_ind.
  - unfold decides, returns in *. cbn [reachedValuesAreIdents]. split.
    + intros Hsafe s. destruct (IHr Hsafe s) as (v & t & Hv). eexists _, _.
      rewrite parseExpr_StarExpr, (bind_Done _ _ _ _ _ Hv). reflexivity.
    + intros Hbad s. rewrite parseExpr_StarExpr.
      now apply bind_Panicked, IHp.
  - unfold decides, returns in *. cbn [reachedValuesAreIdents].
    destruct (isByteIdent elt) eqn:Hb.
    + apply isByteIdent_true in Hb. subst elt. split; [|discriminate].
      intros _ s. eexists _, _. reflexivity.
    + rewrite (parseExpr_generic_slice msgTag len elt Hb). split.
      * intros Hsafe s. destruct (IHr Hsafe s) as (v & t & Hv). eexists _, _.
        rewrite (bind_Done _ _ _ _ _ Hv). reflexivity.
      * intros Hbad s. now apply bind_Panicked, IHp.
  - unfold decides, returns. rewrite reached_fields, parseExpr_StructType.
    destruct (parseFieldList_decides l IH) as [Hret Hpanic]. split.
    + intros Hsafe s. destruct (Hret Hsafe s) as (fs & t & Hfs).
      eexists _, _. rewrite (bind_Done _ _ _ _ _ Hfs). reflexivity.
    + intros Hbad s. now apply bind_Panicked, Hpanic.
  - split.
    + intros Hsafe s.
      destruct e; try contradiction; try (eexists _, _; reflexivity).
      * destruct Fields; [contradiction|]. eexists _, _. reflexivity.
      * cbn [parseExpr]. destruct e1; try (eexists _, _; reflexivity).
        cbn [reachedValuesAreIdents] in Hsafe.
        destruct (Name =? "string"); [|eexists _, _; reflexivity].
        destruct e2; try discriminate.
        destruct (Name0 =? "string"); [eexists _, _; reflexivity|].
        destruct (Name0 =? "interface{}"); eexists _, _; reflexivity.
    + intros Hbad s.
      destruct e; try contradiction; try discriminate.
      * destruct Fields; [contradiction|discriminate].
      * cbn [parseExpr]. destruct e1; try discriminate.
        cbn [reachedValuesAreIdents] in Hbad.
        destruct (Name =? "string"); [|discriminate].
        destruct e2; try discriminate; reflexivity.
Qed.

Lemma GenElem_decides ts :
  (specIsBuilt msgTag ts = true ->
   forall s, exists el s', GenElem msgTag ts s = Done el s')
  /\ (specIsBuilt msgTag ts = false ->
      forall s, GenElem msgTag ts s = Panicked).
Proof.
  unfold specIsBuilt, GenElem.
  destruct (SpecType ts) as [| | | | | | |fl| | | |] eqn:Ety;
    try (split; [intros _ s; now exists nilElem, s|discriminate]).
  destruct fl as [l|].
  - rewrite reached_fields.
    assert (Hl : Forall (fun f => decides msgTag (Type_ f)) l).
    { apply Forall_forall. intros f _. apply parseExpr_decides. }
    destruct (parseFieldList_decides l Hl) as [Hret Hpanic]. split.
    + intros Hsafe s. destruct (Hret Hsafe s) as (fs & t & Hfs).
      rewrite (bind_Done _ _ _ _ _ Hfs). unfold bind, new, ret.
      destruct (length fs =? 0)%nat; eexists _, _; reflexivity.
    + intros Hbad s. now apply bind_Panicked, Hpanic.
  - split; [|discriminate]. intros _ s. eexists _, _. reflexivity.
Qed.

Lemma elems_loop_decides specs :
  (forallb (specIsBuilt msgTag) specs = true ->
   forall out s, exists out' s',
     elems_loop msgTag specs out s = Done out' s')
  /\ (forallb (specIsBuilt msgTag) specs = false ->
      forall out s, elems_loop msgTag specs out s = Panicked).
Proof.
  induction specs as [|ts rest [IHret IHpanic]]; cbn [forallb].
  - split; [|discriminate]. intros _ out s. now exists out, s.
  - destruct (GenElem_decides ts) as [Hret Hpanic].
    destruct (specIsBuilt msgTag ts); cbn [andb].
    + split.
      * intros Hrest out s. destruct (Hret eq_refl s) as (el & t & Hel).
        cbn [elems_loop]. rewrite (bind_Done _ _ _ _ _ Hel).
        destruct (isNil el); now apply IHret.
      * intros Hrest out s. destruct (Hret eq_refl s) as (el & t & Hel).
        cbn [elems_loop]. rewrite (bind_Done _ _ _ _ _ Hel).
        destruct (isNil el); now apply IHpanic.
    + split; [discriminate|]. intros _ out s. cbn [elems_loop].
      apply bind_Panicked. now apply Hpanic.
Qed.

(** X5.  GetElems panics exactly when the file parses, has exports,
    and one of the struct types declared in the trimmed file has, in a
    place the builder comes to, a mapping type with the key string
    whose value is not an identifier; the places the builder comes to
    are the types of the fields, under pointers and in element types
    and in the fields of struct types inside them, except the fields
    with one name or none that their tag excludes.  For every other
    file GetElems returns a list or an error; a type spec that is not
    a struct type plays no part. *)
Theorem GetElems_panics_exactly_on_reached_map_value :
  forall ParseFile FileExports filename s,
    (GetElems msgTag ParseFile FileExports filename s = Panicked <->
     exists f,
       ParseFile filename = parsed f
       /\ snd (FileExports f) = true
       /\ forallb (specIsBuilt msgTag) (GetTypeSpecs (fst (FileExports f)))
          = false)
    /\ (GetElems msgTag ParseFile FileExports filename s <> Panicked ->
        exists out err s',
          GetElems msgTag ParseFile FileExports filename s
          = Done (out, err) s').
Proof.
  intros ParseFile FileExports filename s. split.
  - unfold GetElems, GetAST.
    destruct (ParseFile filename) as [f|f err] eqn:Hparse.
    + destruct (FileExports f) as [f' [|]] eqn:Hex; cbn [negb fst snd].
      * destruct (elems_loop_decides (GetTypeSpecs f')) as [Hret Hpanic].
        destruct (forallb (specIsBuilt msgTag) (GetTypeSpecs f')) eqn:Hall.
        -- split.
           ++ intro H. exfalso.
              destruct (GetTypeSpecs f') as [|ts specs]; [discriminate|].
              destruct (Hret eq_refl [] s) as (out & s' & Hout).
              rewrite (bind_Done _ _ _ _ _ Hout) in H. discriminate.
           ++ intros (g & Hg & Hexg & Hbad). injection Hg as <-.
              rewrite Hex in Hbad. cbn [fst] in Hbad. congruence.
        -- split.
           ++ intros _. exists f. rewrite Hex. now repeat split.
           ++ intros _.
              destruct (GetTypeSpecs f') as [|ts specs]; [discriminate|].
              apply bind_Panicked. now apply Hpanic.
      * split; [discriminate|].
        intros (g & Hg & Hexg & _). injection Hg as <-.
        rewrite Hex in Hexg. discriminate.
    + split; [discriminate|]. intros (g & Hg & _). discriminate.
  - intro H.
    destruct (GetElems msgTag ParseFile FileExports filename s)
      as [[out err] s'|]; [|contradiction].
    now exists out, err, s'.
Qed.

End Panics.

Lemma builder_returns_without_map_value_assertion_witness :
  exists el s',
    parseExpr exampleTag
      (StructType (Some [mkField ["M"]
                           (MapType (Ident "string") (Ident "string")) None;
                         mkField ["P"] (StarExpr chanInt) None])) 0
    = Done el s'.
Proof.
  destruct (builder_returns_without_map_value_assertion exampleTag
              (StructType (Some [mkField ["M"]
                                   (MapType (Ident "string") (Ident "string"))
                                   None;
                                 mkField ["P"] (StarExpr chanInt) None])))
    as [Hret _].
  apply Hret. reflexivity.
Defined.

Lemma GetElems_panics_exactly_on_reached_map_value_witness :
  exists out err s',
    GetElems exampleTag skippedMapParse exportedExports "t.go" 0
    = Done (out, err) s'.
Proof.
  destruct (GetElems_panics_exactly_on_reached_map_value exampleTag
              skippedMapParse exportedExports "t.go" 0) as [Hiff Hret].
  apply Hret. intro Hp. apply Hiff in Hp as (f & Hf & _ & Hbad).
  injection Hf as <-. discriminate.
Defined.

(** ** One iteration, inverted *)

Section FieldStepCases.

Variable msgTag : string -> string.

Lemma tagged_field_cases name ty tag out s out' s' :
  tagged_field msgTag (parseExpr msgTag) name ty tag out s = Done out' s' ->
  (tagValue msgTag tag = "-" /\ out' = out /\ s' = s)
  \/ (tagValue msgTag tag <> "-" /\
      exists e,
        parseExpr msgTag ty s = Done e s'
        /\ out' = if isNil e then out
                  else out ++ [mkStructField (outputKey msgTag name tag) name e]).
Proof.
  intro H.
  destruct (String.eqb_spec (tagValue msgTag tag) "-") as [E|E].
  - left. rewrite (tagged_field_excluded msgTag name ty tag out s E) in H.
    injection H as <- <-. now repeat split.
  - right. split; [exact E|].
    destruct (parseExpr msgTag ty s) as [e t|] eqn:He.
    + exists e. destruct (isNil e) eqn:Hn.
      * destruct e; try discriminate.
        rewrite (tagged_field_dropped msgTag name ty tag out s t He E) in H.
        injection H as <- <-. now split.
      * rewrite (tagged_field_kept msgTag name ty tag out s e t E He Hn) in H.
        injection H as <- <-. now split.
    + rewrite (tagged_field_panics msgTag name ty tag out s He E) in H.
      discriminate.
Qed.

End FieldStepCases.

(** ** The objects of a tree *)

Lemma NoDup_ranges lo mid hi l1 l2 :
  within lo mid l1 -> within mid hi l2 ->
  NoDup l1 -> NoDup l2 -> NoDup (l1 ++ l2).
Proof.
  intros H1 H2 N1 N2. apply NoDup_app; auto.
  intros a Ha1 Ha2. specialize (H1 a Ha1). specialize (H2 a Ha2). lia.
Qed.

Lemma NoDup_one (a : addr) : NoDup [a].
Proof. constructor; [intros []|constructor]. Qed.

Lemma NoDup_above lo hi l :
  within lo hi l -> NoDup l -> NoDup (hi :: l).
Proof.
  intros Hw Hn. constructor; [|exact Hn].
  intro Hin. specialize (Hw hi Hin). lia.
Qed.

Lemma adds_apart_nothing (out : list StructField) s :
  s <= s /\
  exists added,
    out = out ++ added /\ within s s (fieldAddrs added)
    /\ NoDup (fieldAddrs added) /\ length (fieldAddrs added) = s - s.
Proof.
  split; [lia|]. exists []. rewrite app_nil_r.
  split; [reflexivity|]. split; [apply within_nil|].
  split; [constructor|cbn; lia].
Qed.

Section Unshared.

Variable msgTag : string -> string.

Lemma names_loop_apart ty names :
  unshared msgTag ty -> adds_apart (names_loop (parseExpr msgTag) ty names).
Proof.
  intro Hty. induction names as [|nm rest IH]; intros out s out' s' H.
  - injection H as <- <-. apply adds_apart_nothing.
  - cbn [names_loop] in H. apply bind_inv in H as (e & t & He & H).
    destruct (parseExpr_fresh msgTag ty s e t He) as [Hle Hw].
    destruct (Hty s e t He) as [Hn Hlen].
    apply IH in H as [Hle' (added & -> & Hw' & Hn' & Hlen')].
    split; [lia|]. exists (mkStructField nm nm e :: added).
    rewrite <- app_assoc.
    change (fieldAddrs (mkStructField nm nm e :: added))
      with (addrs e ++ fieldAddrs added).
    split; [reflexivity|]. split; [|split].
    + apply within_app; [apply within_widen with s t|apply within_widen with t s'];
        auto; lia.
    + now apply NoDup_ranges with s t s'.
    + rewrite length_app. lia.
Qed.

Lemma tagged_field_apart name ty tag :
  unshared msgTag ty ->
  adds_apart (tagged_field msgTag (parseExpr msgTag) name ty tag).
Proof.
  intros Hty out s out' s' H.
  apply tagged_field_cases in H as [(_ & -> & ->)|(_ & e & He & ->)].
  - apply adds_apart_nothing.
  - destruct (isNil e) eqn:Hn.
    + destruct e; try discriminate.
      apply parseExpr_nil in He as [-> _]. apply adds_apart_nothing.
    + destruct (parseExpr_fresh msgTag ty s e s' He) as [Hle Hw].
      destruct (Hty s e s' He) as [Hnd Hlen].
      split; [exact Hle|]. eexists. split; [reflexivity|].
      unfold fieldAddrs. cbn. rewrite app_nil_r.
      split; [exact Hw|]. split; [exact Hnd|exact Hlen].
Qed.

Lemma field_step_apart field :
  unshared msgTag (Type_ field) ->
  adds_apart (field_step msgTag (parseExpr msgTag) field).
Proof.
  destruct field as [[|nm [|nm' rest]] ty tag]; cbn [Type_]; intro Hty.
  - now apply tagged_field_apart.
  - now apply tagged_field_apart.
  - now apply names_loop_apart.
Qed.

Lemma for_fields_apart l :
  Forall (fun f => unshared msgTag (Type_ f)) l ->
  adds_apart (for_fields msgTag (parseExpr msgTag) l).
Proof.
  induction 1 as [|field rest Hf _ IH]; intros out s out' s' H.
  - injection H as <- <-. apply adds_apart_nothing.
  - cbn [for_fields] in H. apply bind_inv in H as (o & t & Ho & H).
    apply (field_step_apart field Hf) in Ho as [Hle (a1 & -> & Hw1 & Hn1 & Hl1)].
    apply IH in H as [Hle' (a2 & -> & Hw2 & Hn2 & Hl2)].
    split; [lia|]. exists (a1 ++ a2). rewrite app_assoc, fieldAddrs_app.
    split; [reflexivity|]. split; [|split].
    + apply within_app; [apply within_widen with s t|apply within_widen with t s'];
        auto; lia.
    + now apply NoDup_ranges with s t s'.
    + rewrite length_app. lia.
Qed.

Lemma parseExpr_unshared : forall ty, unshared msgTag ty.
Proof.
  induction ty as [x IH|len elt IH|l IH|e He] using Expr_nested_ind;
    intros s el s' H.
  - pose proof H as H0. rewrite parseExpr_StarExpr in H.
    apply bind_inv in H as (v & t & Hv & H).
    destruct (parseExpr_fresh msgTag x s v t Hv) as [Hle Hw].
    destruct (IH s v t Hv) as [Hn Hlen]. injection H as <- <-.
    cbn [addrs length]. split; [now apply NoDup_above with s|lia].
  - destruct (isByteIdent elt) eqn:Hb.
    + apply isByteIdent_true in Hb. subst elt.
      rewrite parseExpr_byte_slice in H. injection H as <- <-.
      cbn [addrs fieldAddrs flat_map length]. split; [apply NoDup_one|lia].
    + rewrite (parseExpr_generic_slice msgTag len elt Hb) in H.
      apply bind_inv in H as (v & t & Hv & H).
      destruct (parseExpr_fresh msgTag elt s v t Hv) as [Hle Hw].
      destruct (IH s v t Hv) as [Hn Hlen]. injection H as <- <-.
      cbn [addrs length]. split; [now apply NoDup_above with s|lia].
  - rewrite parseExpr_StructType in H. apply bind_inv in H as (fs & t & Hfs & H).
    injection H as <- <-. rewrite addrs_Struct.
    unfold parseFieldList, parseFieldList_of in Hfs.
    destruct (NumFields l =? 0)%nat.
    + injection Hfs as <- <-. cbn [addrs fieldAddrs flat_map length].
      split; [apply NoDup_one|lia].
    + apply (for_fields_apart l IH) in Hfs as [Hle (added & -> & Hw & Hn & Hlen)].
      cbn [app length]. split; [now apply NoDup_above with s|lia].
  - assert (Hone : forall t b i, Done (BaseElem t b i) (S t) = Done el s' ->
              NoDup (addrs el) /\ length (addrs el) = s' - t).
    { intros t b i Ht. injection Ht as <- <-. cbn [addrs fieldAddrs flat_map length].
      split; [apply NoDup_one|lia]. }
    assert (Hnil : forall t, Done nilElem t = Done el s' ->
              NoDup (addrs el) /\ length (addrs el) = s' - t).
    { intros t Ht. injection Ht as <- <-. cbn [addrs length]. split; [constructor|lia]. }
    destruct e; try contradiction; try (now apply Hnil).
    + now apply Hone in H.
    + destruct Fields; [contradiction|]. injection H as <- <-. cbn [addrs fieldAddrs flat_map length].
      split; [apply NoDup_one|lia].
    + cbn [parseExpr] in H.
      destruct e1; try (now apply Hnil).
      destruct (Name =? "string"); [|now apply Hnil].
      destruct e2; try discriminate.
      destruct (Name0 =? "string");
        [|destruct (Name0 =? "interface{}")];
        try (now apply Hnil); now apply Hone in H.
Qed.

(** X6.  The objects of the tree the builder returns are exactly the
    objects allocated by the call: their addresses lie between the
    allocation state before and after the call, no address occurs
    twice in the tree (no object is shared inside it), and there are
    as many as the call allocated, so none is left outside the tree. *)
Theorem builder_tree_is_what_it_allocates :
  forall ty s e s',
    parseExpr msgTag ty s = Done e s' ->
    s <= s'
    /\ within s s' (addrs e)
    /\ NoDup (addrs e)
    /\ length (addrs e) = s' - s
    /\ forall a, s <= a < s' -> In a (addrs e).
Proof.
  intros ty s e s' H.
  destruct (parseExpr_fresh msgTag ty s e s' H) as [Hle Hw].
  destruct (parseExpr_unshared ty s e s' H) as [Hn Hlen].
  split; [exact Hle|]. split; [exact Hw|]. split; [exact Hn|].
  split; [exact Hlen|].
  intros a Ha.
  assert (Hincl : incl (seq s (s' - s)) (addrs e)).
  { apply NoDup_length_incl.
    - exact Hn.
    - rewrite length_seq. unfold addr in *. lia.
    - intros b Hb. apply in_seq. specialize (Hw b Hb). lia. }
  apply Hincl, in_seq. lia.
Qed.

End Unshared.

Lemma builder_tree_is_what_it_allocates_witness :
  NoDup (addrs (Slice 8 (Ptr 7 (BaseElem 6 IDENT "T"))))
  /\ length (addrs (Slice 8 (Ptr 7 (BaseElem 6 IDENT "T")))) = 9 - 6.
Proof.
  destruct (builder_tree_is_what_it_allocates exampleTag
              (ArrayType None (StarExpr (Ident "T"))) 6
              (Slice 8 (Ptr 7 (BaseElem 6 IDENT "T"))) 9 eq_refl)
    as (_ & _ & Hn & Hl & _).
  split; [exact Hn|exact Hl].
Defined.

(** ** The builder and the allocation state *)

(** X7.  What the builder does for a type expression does not depend
    on what was allocated before: started at the state [s] it returns
    the tree it returns when started at 0, moved by [s], and it panics
    at one state exactly when it panics at every other.  So two calls
    on the same expression agree on whether the result is nil and on
    the number of objects they allocate. *)
Theorem builder_does_not_depend_on_start :
  forall msgTag ty s t,
    parseExpr msgTag ty s
    = shiftOutcome (shiftElem s) s (parseExpr msgTag ty 0)
    /\ (parseExpr msgTag ty s = Panicked <-> parseExpr msgTag ty t = Panicked)
    /\ forall e s' e' t',
         parseExpr msgTag ty s = Done e s' ->
         parseExpr msgTag ty t = Done e' t' ->
         isNil e = isNil e'
         /\ s' - s = t' - t
         /\ exists e0, e = shiftElem s e0 /\ e' = shiftElem t e0.
Proof.
  intros msgTag ty s t.
  pose proof (parseExpr_shift msgTag ty s 0) as Hs.
  pose proof (parseExpr_shift msgTag ty t 0) as Ht.
  rewrite Nat.add_0_r in Hs, Ht.
  split; [exact Hs|]. rewrite Hs, Ht.
  destruct (parseExpr msgTag ty 0) as [e0 n|]; cbn [shiftOutcome].
  - split; [split; discriminate|].
    intros e s' e' t' He He'. injection He as <- <-. injection He' as <- <-.
    rewrite !isNil_shiftElem. split; [reflexivity|]. split; [lia|].
    now exists e0.
  - split; [tauto|]. discriminate.
Qed.

(** ** The names and keys of the field list *)

Section FieldNames.

Variable msgTag : string -> string.

Lemma names_loop_names ty names :
  forall out s out' s',
    names_loop (parseExpr msgTag) ty names out s = Done out' s' ->
    map FieldName out' = map FieldName out ++ names
    /\ map FieldTag out' = map FieldTag out ++ names.
Proof.
  induction names as [|nm rest IH]; intros out s out' s' H.
  - injection H as <- _. now rewrite !app_nil_r.
  - cbn [names_loop] in H. apply bind_inv in H as (e & t & _ & H).
    apply IH in H as [Hn Ht]. rewrite Hn, Ht, !map_app. cbn.
    now rewrite <- !app_assoc.
Qed.

Lemma tagged_field_kept_or_not field out s out' s' :
  length (Names field) <= 1 ->
  field_step msgTag (parseExpr msgTag) field out s = Done out' s' ->
  (passesTag msgTag field && passesType msgTag field = false /\ out' = out)
  \/ (passesTag msgTag field && passesType msgTag field = true /\
      exists e,
        isNil e = false
        /\ out' = out ++ [mkStructField
                            (outputKey msgTag (sourceName field) (Tag field))
                            (sourceName field) e]).
Proof.
  intros Hlen H. rewrite (field_step_sourceName msgTag field out Hlen) in H.
  unfold passesTag.
  apply tagged_field_cases in H as [(E & -> & _)|(E & e & He & ->)].
  - left. rewrite E. now split.
  - destruct (String.eqb_spec (tagValue msgTag (Tag field)) "-") as [E'|_];
      [contradiction|].
    rewrite (passesType_Done msgTag field s e s' He). cbn [negb andb].
    destruct (isNil e) eqn:Hn; [left; now split|right].
    split; [reflexivity|]. now exists e.
Qed.

Lemma isMulti_false field : isMulti field = false -> length (Names field) <= 1.
Proof. unfold isMulti. intro H. apply Nat.ltb_ge in H. exact H. Qed.

Lemma isMulti_true names ty tag :
  isMulti (mkField names ty tag) = true ->
  field_step msgTag (parseExpr msgTag) (mkField names ty tag)
  = names_loop (parseExpr msgTag) ty names.
Proof.
  unfold isMulti. cbn [Names]. intro H. apply Nat.ltb_lt in H.
  destruct names as [|nm [|nm' rest]]; cbn [length] in H; try lia.
  reflexivity.
Qed.

Lemma field_step_names field out s out' s' :
  field_step msgTag (parseExpr msgTag) field out s = Done out' s' ->
  map FieldName out' = map FieldName out ++ keptNames msgTag field
  /\ map FieldTag out' = map FieldTag out ++ keptKeys msgTag field.
Proof.
  intro H. unfold keptNames, keptKeys. destruct (isMulti field) eqn:Hm.
  - destruct field as [names ty tag]. rewrite (isMulti_true _ _ _ Hm) in H.
    now apply names_loop_names in H.
  - apply tagged_field_kept_or_not in H; [|now apply isMulti_false].
    destruct H as [(-> & ->)|(-> & e & _ & ->)].
    + now rewrite !app_nil_r.
    + now rewrite !map_app.
Qed.

Lemma for_fields_names l :
  forall out s out' s',
    for_fields msgTag (parseExpr msgTag) l out s = Done out' s' ->
    map FieldName out' = map FieldName out ++ flat_map (keptNames msgTag) l
    /\ map FieldTag out' = map FieldTag out ++ flat_map (keptKeys msgTag) l.
Proof.
  induction l as [|field rest IH]; intros out s out' s' H.
  - injection H as <- _. cbn. now rewrite !app_nil_r.
  - cbn [for_fields] in H. apply bind_inv in H as (o & t & Ho & H).
    apply field_step_names in Ho as [Hn Hk]. apply IH in H as [Hn' Hk'].
    rewrite Hn', Hk', Hn, Hk. cbn [flat_map]. now rewrite <- !app_assoc.
Qed.

Lemma parseFieldList_names fl s fs t :
  parseFieldList msgTag fl s = Done fs t ->
  map FieldName fs = flat_map (keptNames msgTag) (fieldsOf fl)
  /\ map FieldTag fs = flat_map (keptKeys msgTag) (fieldsOf fl).
Proof.
  unfold parseFieldList, parseFieldList_of. intro H.
  destruct fl as [l|]; [|injection H as <- _; now split].
  cbn [fieldsOf]. destruct l as [|field rest].
  - injection H as <- _. now split.
  - rewrite NumFields_expansion in H.
    assert (Hpos : (expansion field + NumFields rest =? 0)%nat = false).
    { apply Nat.eqb_neq. unfold expansion.
      destruct (Names field); cbn [length]; lia. }
    rewrite Hpos in H. now apply for_fields_names in H.
Qed.

(** X8.  The field list parseFieldList returns keeps the order of the
    declaration: its source names are, entry after entry, all the names
    of an entry with several names and the one name of an entry with
    one name or none (embedded) that passes the tag check and the type
    check; its output keys are the same names, except for a kept entry
    with one name or none, whose key is the value of its tag when that
    is not empty. *)
Theorem field_list_keeps_declaration_order :
  forall fl s fs t,
    parseFieldList msgTag fl s = Done fs t ->
    map FieldName fs = flat_map (keptNames msgTag) (fieldsOf fl)
    /\ map FieldTag fs = flat_map (keptKeys msgTag) (fieldsOf fl)
    /\ length fs = length (flat_map (keptKeys msgTag) (fieldsOf fl)).
Proof.
  intros fl s fs t H.
  destruct (parseFieldList_names fl s fs t H) as [Hnames Hkeys].
  split; [exact Hnames|]. split; [exact Hkeys|].
  rewrite <- Hkeys. now rewrite length_map.
Qed.

Lemma for_fields_not_nil l :
  Forall (fun f => isMulti f = false) l ->
  forall out s out' s',
    for_fields msgTag (parseExpr msgTag) l out s = Done out' s' ->
    exists added,
      out' = out ++ added
      /\ Forall (fun sf => isNil (FieldElem sf) = false) added.
Proof.
  induction 1 as [|field rest Hf _ IH]; intros out s out' s' H.
  - injection H as <- _. exists []. now rewrite app_nil_r.
  - cbn [for_fields] in H. apply bind_inv in H as (o & t & Ho & H).
    apply IH in H as (a2 & -> & Ha2).
    apply tagged_field_kept_or_not in Ho; [|now apply isMulti_false].
    destruct Ho as [(_ & ->)|(_ & e & Hn & ->)].
    + now exists a2.
    + eexists (_ :: a2). rewrite <- app_assoc. split; [reflexivity|].
      constructor; [exact Hn|exact Ha2].
Qed.

(** X9.  When no entry of a field list has several names, no field of
    the list parseFieldList returns holds the nil element: on the path
    for one name or none a field is appended only after its element
    was found not to be nil. *)
Theorem single_name_fields_are_not_nil :
  forall fl s fs t,
    Forall (fun f => isMulti f = false) (fieldsOf fl) ->
    parseFieldList msgTag fl s = Done fs t ->
    Forall (fun sf => isNil (FieldElem sf) = false) fs.
Proof.
  intros fl s fs t Hl H. unfold parseFieldList, parseFieldList_of in H.
  destruct fl as [l|]; [|injection H as <- _; constructor].
  destruct (NumFields l =? 0)%nat; [injection H as <- _; constructor|].
  apply (for_fields_not_nil l Hl) in H as (added & -> & Ha). exact Ha.
Qed.

Lemma keptNames_expansion field :
  length (keptNames msgTag field) <= expansion field.
Proof.
  unfold keptNames, expansion. destruct (isMulti field) eqn:Hm.
  - destruct (Names field); cbn [length]; lia.
  - destruct (passesTag msgTag field && passesType msgTag field);
      destruct (Names field); cbn [length]; lia.
Qed.

(** X10.  NumFields counts every entry at least once, so that it is 0
    for the empty list only, and the capacity parseFieldList makes the
    field list with, NumFields of the entries, is never exceeded: the
    list it returns is not longer. *)
Theorem field_list_fits_its_capacity :
  forall l,
    (NumFields l = 0 <-> l = [])
    /\ forall s fs t,
         parseFieldList msgTag (Some l) s = Done fs t ->
         length fs <= NumFields l.
Proof.
  intro l. split.
  - split; [|now intros ->]. destruct l as [|field rest]; [reflexivity|].
    rewrite NumFields_expansion. unfold expansion.
    destruct (Names field); cbn [length]; lia.
  - intros s fs t H. apply parseFieldList_names in H as [Hn _].
    rewrite <- (length_map FieldName), Hn. cbn [fieldsOf]. clear.
    induction l as [|field rest IH]; [cbn; lia|].
    rewrite NumFields_expansion.
    cbn [flat_map]. rewrite length_app.
    pose proof (keptNames_expansion field). lia.
Qed.

End FieldNames.

Lemma field_list_keeps_declaration_order_witness :
  exists fs t,
    parseFieldList exampleTag
      (Some [mkField ["Skip"] (Ident "int") (Some tagDash);
             mkField ["A"; "B"] chanInt (Some tagDash);
             mkField [] (StarExpr (Ident "Base")) None;
             mkField ["Age"] (Ident "int") (Some tagN);
             mkField ["C"] chanInt None]) 0 = Done fs t
    /\ map FieldName fs = ["A"; "B"; "Base"; "Age"]
    /\ map FieldTag fs = ["A"; "B"; "Base"; "n"]
    /\ length fs = 4.
Proof.
  eexists _, _. split; [reflexivity|].
  apply (field_list_keeps_declaration_order exampleTag
           (Some [mkField ["Skip"] (Ident "int") (Some tagDash);
                  mkField ["A"; "B"] chanInt (Some tagDash);
                  mkField [] (StarExpr (Ident "Base")) None;
                  mkField ["Age"] (Ident "int") (Some tagN);
                  mkField ["C"] chanInt None]) 0 _ _ eq_refl).
Defined.

Lemma single_name_fields_are_not_nil_witness :
  Forall (fun sf => isNil (FieldElem sf) = false)
    [mkStructField "B" "B" (BaseElem 0 Int "")].
Proof.
  apply (single_name_fields_are_not_nil exampleTag
           (Some [mkField ["A"] chanInt None;
                  mkField ["B"] (Ident "int") None]) 0
           [mkStructField "B" "B" (BaseElem 0 Int "")] 1).
  - repeat constructor.
  - reflexivity.
Defined.

Lemma field_list_fits_its_capacity_witness :
  length [mkStructField "B" "B" (BaseElem 0 Int "")] <= 2.
Proof.
  destruct (field_list_fits_its_capacity exampleTag
              [mkField ["A"] chanInt None; mkField ["B"] (Ident "int") None])
    as [_ Hcap].
  apply (Hcap 0 [mkStructField "B" "B" (BaseElem 0 Int "")] 1). reflexivity.
Defined.

Lemma builder_does_not_depend_on_start_witness :
  isNil (Ptr 0 nilElem) = isNil (Ptr 7 nilElem) /\ 1 - 0 = 8 - 7.
Proof.
  destruct (builder_does_not_depend_on_start exampleTag (StarExpr chanInt) 0 7)
    as (_ & _ & Hsame).
  destruct (Hsame (Ptr 0 nilElem) 1 (Ptr 7 nilElem) 8 eq_refl eq_refl)
    as (Hn & Hc & _).
  split; [exact Hn|exact Hc].
Defined.

(** ** Declarations in the output *)

Section Output.

Variable msgTag : string -> string.

Lemma GenElem_accepted ts s el s' :
  GenElem msgTag ts s = Done el s' ->
  isNil el = negb (accepted msgTag ts)
  /\ (isNil el = false ->
      exists fl fs t,
        SpecType ts = StructType fl
        /\ parseFieldList msgTag fl s = Done fs t
        /\ el = Ptr (S t) (Struct t (SpecName ts) fs)
        /\ fs <> []).
Proof.
  intro H. unfold GenElem in H. unfold accepted.
  destruct (SpecType ts) as [| | | | | | |fl| | | |] eqn:Ety;
    try (injection H as <- _; split; [reflexivity|discriminate]).
  apply bind_inv in H as (fs & t & Hfs & H). unfold bind, new, ret in H.
  destruct (parseFieldList_names msgTag fl s fs t Hfs) as [Hn _].
  rewrite <- Hn, length_map.
  destruct fs as [|sf fs]; cbn [length Nat.eqb negb] in *.
  - injection H as <- _. split; [reflexivity|discriminate].
  - injection H as <- _. split; [reflexivity|]. intros _.
    exists fl, (sf :: fs), t. repeat split; auto. discriminate.
Qed.

Lemma elems_loop_accepted specs :
  forall out s out' s',
    elems_loop msgTag specs out s = Done out' s' ->
    exists added,
      out' = out ++ added
      /\ map declName added = map SpecName (filter (accepted msgTag) specs)
      /\ Forall (fun el => isNil el = false /\ declFields el <> []) added.
Proof.
  induction specs as [|ts rest IH]; intros out s out' s' H.
  - injection H as <- _. exists []. now rewrite app_nil_r.
  - cbn [elems_loop] in H. apply bind_inv in H as (el & t & Hel & H).
    apply GenElem_accepted in Hel as [Hacc Hshape]. cbn [filter].
    destruct (isNil el) eqn:Hn.
    + apply IH in H as (added & -> & Hnames & Hall).
      exists added. split; [reflexivity|]. split; [|exact Hall].
      destruct (accepted msgTag ts); [discriminate|exact Hnames].
    + apply IH in H as (added & -> & Hnames & Hall).
      destruct (Hshape eq_refl) as (fl & fs & t' & _ & _ & -> & Hfs).
      exists (Ptr (S t') (Struct t' (SpecName ts) fs) :: added).
      rewrite <- app_assoc. split; [reflexivity|].
      destruct (accepted msgTag ts); [|discriminate].
      cbn [map declName]. rewrite Hnames. split; [reflexivity|].
      constructor; [|exact Hall]. now split.
Qed.

(** X11.  GenElem returns nil exactly for the type specs that are not
    struct types and for the struct types none of whose entries leaves
    a field (every entry with one name or none is excluded by its tag
    or has a type the builder returns nil for, and no entry has
    several names); for any other it returns the element with the name
    of the type spec and the field list of parseFieldList. *)
Theorem GenElem_drops_exactly_the_empty :
  forall ts s el s',
    GenElem msgTag ts s = Done el s' ->
    isNil el = negb (accepted msgTag ts)
    /\ (isNil el = false ->
        declName el = SpecName ts
        /\ declFields el <> []
        /\ map FieldName (declFields el)
           = match SpecType ts with
             | StructType fl => flat_map (keptNames msgTag) (fieldsOf fl)
             | _ => []
             end).
Proof.
  intros ts s el s' H. apply GenElem_accepted in H as [Hacc Hshape].
  split; [exact Hacc|]. intro Hn.
  destruct (Hshape Hn) as (fl & fs & t & -> & Hfs & -> & Hne).
  cbn [declName declFields]. repeat split; auto.
  now apply parseFieldList_names in Hfs as [Hnames _].
Qed.

(** X12.  When GetElems returns a list, the list has one element for
    each type spec of the trimmed file that is a struct type with an
    entry that leaves a field, in the order of the type specs, with the
    name of the type spec; the other type specs leave nothing, and no
    element of the list is nil or has an empty field list. *)
Theorem GetElems_keeps_declaration_order :
  forall ParseFile FileExports filename f s out err s',
    ParseFile filename = parsed f ->
    snd (FileExports f) = true ->
    GetElems msgTag ParseFile FileExports filename s = Done (out, err) s' ->
    err = None
    /\ map declName out
       = map SpecName (filter (accepted msgTag)
                              (GetTypeSpecs (fst (FileExports f))))
    /\ Forall (fun el => isNil el = false /\ declFields el <> []) out.
Proof.
  intros ParseFile FileExports filename f s out err s' Hparse Hex H.
  unfold GetElems, GetAST in H. rewrite Hparse in H.
  destruct (FileExports f) as [f' ex]. cbn [snd fst] in *. subst ex.
  cbn [negb] in H.
  destruct (GetTypeSpecs f') as [|ts specs] eqn:Hspecs.
  - injection H as <- <- _. repeat split; constructor.
  - apply bind_inv in H as (o & t & Ho & H). injection H as <- <- _.
    apply elems_loop_accepted in Ho as (added & -> & Hnames & Hall).
    now repeat split.
Qed.

End Output.

Lemma GenElem_drops_exactly_the_empty_witness :
  accepted exampleTag
    (mkTypeSpec "T"
       (StructType (Some [mkField ["Skip"] (Ident "int") (Some tagDash);
                          mkField ["C"] chanInt None]))) = false.
Proof.
  destruct (GenElem_drops_exactly_the_empty exampleTag
              (mkTypeSpec "T"
                 (StructType (Some [mkField ["Skip"] (Ident "int") (Some tagDash);
                                    mkField ["C"] chanInt None])))
              0 nilElem 2 eq_refl) as [Hacc _].
  cbn [isNil] in Hacc. now destruct (accepted exampleTag _).
Defined.

Lemma GetElems_keeps_declaration_order_witness :
  GetElems exampleTag exportedParse exportedExports "t.go" 0
  = Done ([Ptr 3 (Struct 2 "T"
                    [mkStructField "Name" "Name" (BaseElem 0 String_ "");
                     mkStructField "Age" "Age" (BaseElem 1 Int "")])],
          None) 4
  /\ map SpecName (filter (accepted exampleTag) (GetTypeSpecs exportedOnly))
     = ["T"].
Proof.
  split; [reflexivity|].
  destruct (GetElems_keeps_declaration_order exampleTag exportedParse
              exportedExports "t.go" exportedOnly 0
              [Ptr 3 (Struct 2 "T"
                        [mkStructField "Name" "Name" (BaseElem 0 String_ "");
                         mkStructField "Age" "Age" (BaseElem 1 Int "")])]
              None 4 eq_refl eq_refl eq_refl) as (_ & Hnames & _).
  symmetry. exact Hnames.
Defined.

(** ** The table of the base kinds *)

Ltac split_names :=
  repeat match goal with
         | |- context [String.eqb ?x ?y] =>
             destruct (String.eqb_spec x y); subst
         end.

Lemma identBase_inv name :
  identBase name <> IDENT ->
  In (name, identBase name)
     [("float32", Float32); ("float64", Float64);
      ("complex128", Complex128); ("complex64", Complex64);
      ("int", Int); ("int8", Int8); ("int16", Int16); ("int32", Int32);
      ("int64", Int64); ("uint", Uint); ("uint8", Uint8);
      ("uint16", Uint16); ("uint32", Uint32); ("uint64", Uint64);
      ("string", String_); ("bool", Bool)].
Proof.
  unfold identBase. split_names; intro H; cbn; try tauto.
Qed.

(** X13.  An identifier always builds to one new base element, never
    to nil.  Its kind is never bytes or one of the two map kinds, no
    two names have the same kind other than IDENT, and the element
    carries the name of the identifier exactly when the kind is
    IDENT. *)
Theorem identifier_table :
  forall msgTag name s,
    (exists kind ident,
        parseExpr msgTag (Ident name) s = Done (BaseElem s kind ident) (S s)
        /\ kind = identBase name
        /\ (kind = IDENT -> ident = name)
        /\ (kind <> IDENT -> ident = ""))
    /\ identBase name <> Bytes
    /\ identBase name <> MapStrStr
    /\ identBase name <> MapStrIntf
    /\ forall name',
         identBase name = identBase name' ->
         identBase name <> IDENT ->
         name = name'.
Proof.
  intros msgTag name s. split; [|split; [|split; [|split]]].
  - exists (identBase name),
      (if isIDENT (identBase name) then name else "").
    split; [reflexivity|]. split; [reflexivity|]. split.
    + now intros ->.
    + intro H. destruct (identBase name); try reflexivity. contradiction.
  - unfold identBase. split_names; discriminate.
  - unfold identBase. split_names; discriminate.
  - unfold identBase. split_names; discriminate.
  - intros name' Heq Hne.
    assert (Hne' : identBase name' <> IDENT) by now rewrite <- Heq.
    apply identBase_inv in Hne. apply identBase_inv in Hne'.
    rewrite <- Heq in Hne'. cbn [In] in Hne, Hne'.
    repeat match goal with
           | H : _ \/ _ |- _ => destruct H
           | H : False |- _ => destruct H
           | H : (_, _) = (_, _) |- _ => injection H as ? ?
           end; subst; congruence.
Qed.

Lemma identifier_table_witness :
  parseExpr exampleTag (Ident "Widget") 0
  = Done (BaseElem 0 IDENT "Widget") 1
  /\ "uint8" = "uint8".
Proof.
  destruct (identifier_table exampleTag "Widget" 0)
    as ((kind & ident & Hrun & Hkind & Hname & _) & _).
  destruct (identifier_table exampleTag "uint8" 0) as (_ & _ & _ & _ & Hinj).
  split.
  - rewrite Hrun. rewrite (Hname Hkind), Hkind. reflexivity.
  - apply Hinj; [reflexivity|discriminate].
Defined.

(** * Properties of msgp/number.go *)

Section NumberIntegers.

Local Open Scope Z_scope.
Import Number.

Lemma uint64_nonneg i : 0 <= i < 2 ^ 63 -> uint64 i = i.
Proof. intro H. unfold uint64. apply Z.mod_small. lia. Qed.

Lemma uint64_neg i : - 2 ^ 63 <= i < 0 -> uint64 i = i + 2 ^ 64.
Proof.
  intro H. unfold uint64. symmetry.
  apply Z.mod_unique with (q := -1); lia.
Qed.

Lemma int64_uint64 i : isInt64 i -> int64 (uint64 i) = i.
Proof.
  unfold isInt64. intro H. destruct (Z_lt_le_dec i 0) as [Hneg|Hpos].
  - rewrite uint64_neg by lia. unfold int64.
    destruct (Z.ltb_spec (i + 2 ^ 64) (2 ^ 63)); lia.
  - rewrite uint64_nonneg by lia. unfold int64.
    destruct (Z.ltb_spec i (2 ^ 63)); lia.
Qed.

Lemma uint64_range i : isInt64 i -> isUint64 (uint64 i).
Proof.
  unfold isInt64, isUint64. intro H. destruct (Z_lt_le_dec i 0).
  - rewrite uint64_neg; lia.
  - rewrite uint64_nonneg; lia.
Qed.

Lemma uint64_nonzero i : isInt64 i -> i <> 0 -> uint64 i <> 0.
Proof.
  unfold isInt64. intros H Hi. destruct (Z_lt_le_dec i 0).
  - rewrite uint64_neg; lia.
  - rewrite uint64_nonneg; lia.
Qed.

Lemma Int_AsInt n i : isInt64 i -> Int (AsInt n i) = (i, true).
Proof.
  intro H. unfold AsInt. destruct (Z.eqb_spec i 0) as [->|Hi].
  - reflexivity.
  - unfold Int. cbn [bits typ]. now rewrite int64_uint64.
Qed.

(** X14.  Int gives back, with the flag true, every int64 AsInt has
    set, 0 included, which AsInt stores with the type InvalidType;
    Type reports Int64Type for it and Uint reports that the type is
    not its own. *)
Theorem AsInt_then_Int :
  forall n i,
    isInt64 i ->
    Int (AsInt n i) = (i, true)
    /\ Type' (AsInt n i) = Int64Type
    /\ snd (Uint (AsInt n i)) = false
    /\ fromSetter (AsInt n i).
Proof.
  intros n i H. split; [now apply Int_AsInt|].
  unfold AsInt. destruct (Z.eqb_spec i 0) as [->|Hi].
  - repeat split; cbn; lia.
  - split; [reflexivity|]. split; [reflexivity|].
    split; cbn [bits typ]; [now apply uint64_range|now apply uint64_nonzero].
Qed.

(** X15.  Two Numbers set by AsInt are equal exactly when the
    integers are: the Number of 0 is the zero value of the struct and
    the Number of no other int64, and a Number set by AsInt is never
    equal to one set by AsUint, whatever the values. *)
Theorem AsInt_equality :
  forall n m i j,
    isInt64 i -> isInt64 j ->
    (AsInt n i = AsInt m j <-> i = j)
    /\ (AsInt n i = zeroNumber <-> i = 0)
    /\ forall u, AsInt n i <> AsUint m u.
Proof.
  intros n m i j Hi Hj. split; [|split].
  - split.
    + intro H. pose proof (Int_AsInt n i Hi) as Hl.
      rewrite H, (Int_AsInt m j Hj) in Hl. now injection Hl.
    + intros ->. unfold AsInt. now destruct (j =? 0).
  - unfold AsInt, zeroNumber. destruct (Z.eqb_spec i 0) as [->|Hne].
    + now split.
    + split; [discriminate|contradiction].
  - intros u. unfold AsInt, AsUint. destruct (i =? 0); discriminate.
Qed.

End NumberIntegers.

Lemma AsInt_then_Int_witness :
  Number.Int (Number.AsInt Number.zeroNumber (-5)%Z) = ((-5)%Z, true).
Proof.
  apply (AsInt_then_Int Number.zeroNumber (-5)%Z).
  unfold Number.isInt64. lia.
Defined.

Lemma AsInt_equality_witness :
  Number.AsInt Number.zeroNumber 0%Z = Number.zeroNumber.
Proof.
  destruct (AsInt_equality Number.zeroNumber Number.zeroNumber 0%Z 0%Z)
    as (_ & Hzero & _); try (unfold Number.isInt64; lia).
  now apply Hzero.
Defined.

Section NumberMethods.

Local Open Scope Z_scope.
Import Number.

Variables float32 float64 : Type.
Variable Float32bits : float32 -> Z.
Variable Float64bits : float64 -> Z.
Variable Float32frombits : Z -> float32.
Variable Float64frombits : Z -> float64.
Variable widen : float32 -> float64.
Variable zero : float64.
Variable AppendInt64 : bytes -> Z -> bytes.
Variable AppendUint64 : bytes -> Z -> bytes.
Variable AppendFloat64 : bytes -> float64 -> bytes.
Variable AppendFloat32 : bytes -> float32 -> bytes.
Variable NextType : bytes -> Type_.
Variable ReadInt64Bytes : bytes -> Z * bytes * option Err.
Variable ReadUint64Bytes : bytes -> Z * bytes * option Err.
Variable ReadFloat64Bytes : bytes -> float64 * bytes * option Err.
Variable ReadFloat32Bytes : bytes -> float32 * bytes * option Err.
Variable FormatFloat : float64 -> string.
Variable FormatInt : Z -> string.
Variable FormatUint : Z -> string.
Variable AppendFloat : bytes -> float64 -> bytes.
Variable AppendInt : bytes -> Z -> bytes.
Variable AppendUint : bytes -> Z -> bytes.

Local Abbreviation Float := (Float float32 float64 Float32frombits Float64frombits widen zero).
Local Abbreviation AsFloat32 := (AsFloat32 float32 Float32bits).
Local Abbreviation AsFloat64 := (AsFloat64 float64 Float64bits).
Local Abbreviation MarshalMsg :=
  (MarshalMsg float32 float64 Float32frombits Float64frombits
     AppendInt64 AppendUint64 AppendFloat64 AppendFloat32).
Local Abbreviation UnmarshalMsg :=
  (UnmarshalMsg float32 float64 Float32bits Float64bits NextType
     ReadInt64Bytes ReadUint64Bytes ReadFloat64Bytes ReadFloat32Bytes).
Local Abbreviation String :=
  (String float32 float64 Float32frombits Float64frombits widen zero
     FormatFloat FormatInt FormatUint).
Local Abbreviation MarshalJSON :=
  (MarshalJSON float32 float64 Float32frombits Float64frombits widen zero
     AppendFloat AppendInt AppendUint).

(** X16.  At most one of Int, Uint and Float reports that the type
    of a Number is its own, and for a Number as the setters leave it
    exactly one does; Type never reports InvalidType, and for a Number
    as the setters leave it reports one of the four types Int64Type,
    Uint64Type, Float32Type and Float64Type. *)
Theorem one_underlying_type :
  forall n,
    Type' n <> InvalidType
    /\ (snd (Int n) = true -> snd (Uint n) = false /\ snd (Float n) = false)
    /\ (snd (Uint n) = true -> snd (Float n) = false)
    /\ (fromSetter n ->
        (snd (Int n) || snd (Uint n) || snd (Float n) = true)%bool
        /\ In (Type' n) [Int64Type; Uint64Type; Float32Type; Float64Type]).
Proof using float32 float64 Float32frombits Float64frombits widen zero.
  intros [b t]. unfold Type', Int, Uint, Number.Float, fromSetter.
  cbn [typ bits snd].
  split; [destruct t; discriminate|].
  split; [destruct t; intro; try discriminate; now split|].
  split; [destruct t; intro; try discriminate; reflexivity|].
  intros [_ Ht].
  destruct t; try contradiction; (split; [reflexivity|cbn [In]; auto 6]).
Qed.

(** X17.  MarshalMsg appends, with the append function of its type,
    the value the setter has stored: the integer of AsInt, 0 included
    (through the default case), and the integer of AsUint; and the
    float of AsFloat64 and of AsFloat32 when the bits of the float give
    back the float, the 32 bits of a float32 being left whole by the
    conversions to uint64 and back.  It never returns an error. *)
Theorem MarshalMsg_after_setter :
  forall n b,
    (forall i, isInt64 i ->
               MarshalMsg (AsInt n i) b = (AppendInt64 b i, None))
    /\ (forall u, MarshalMsg (AsUint n u) b = (AppendUint64 b u, None))
    /\ (forall f, Float64frombits (Float64bits f) = f ->
                  MarshalMsg (AsFloat64 n f) b = (AppendFloat64 b f, None))
    /\ (forall f, isUint32 (Float32bits f) ->
                  Float32frombits (Float32bits f) = f ->
                  MarshalMsg (AsFloat32 n f) b = (AppendFloat32 b f, None))
    /\ snd (MarshalMsg n b) = None.
Proof.
  intros n b. split; [|split; [|split; [|split]]].
  - intros i Hi. unfold AsInt. destruct (Z.eqb_spec i 0) as [->|Hne].
    + reflexivity.
    + unfold Number.MarshalMsg. cbn [typ bits]. now rewrite int64_uint64.
  - reflexivity.
  - intros f Hf. unfold Number.MarshalMsg, Number.AsFloat64. cbn [typ bits].
    now rewrite Hf.
  - intros f Hr Hf. unfold Number.MarshalMsg, Number.AsFloat32.
    cbn [typ bits]. unfold uint32. rewrite Z.mod_small by exact Hr.
    now rewrite Hf.
  - unfold Number.MarshalMsg. now destruct (typ n).
Qed.

(** X18.  Float gives back, with the flag true, the float64 AsFloat64
    has set and the float32 AsFloat32 has set, converted to float64,
    when the bits of the float give back the float (and those of a
    float32 are 32 bits); for a Number set by AsInt or AsUint it
    reports false with the value 0.0. *)
Theorem AsFloat_then_Float :
  forall n,
    (forall f, Float64frombits (Float64bits f) = f ->
               Float (AsFloat64 n f) = (f, true))
    /\ (forall f, isUint32 (Float32bits f) ->
                  Float32frombits (Float32bits f) = f ->
                  Float (AsFloat32 n f) = (widen f, true))
    /\ (forall i, Float (AsInt n i) = (zero, false))
    /\ (forall u, Float (AsUint n u) = (zero, false)).
Proof.
  intro n. split; [|split; [|split]].
  - intros f Hf. unfold Number.Float, Number.AsFloat64. cbn [typ bits].
    now rewrite Hf.
  - intros f Hr Hf. unfold Number.Float, Number.AsFloat32. cbn [typ bits].
    unfold uint32. rewrite Z.mod_small by exact Hr. now rewrite Hf.
  - intro i. unfold AsInt. now destruct (i =? 0).
  - reflexivity.
Qed.

(** X19.  String and MarshalJSON panic exactly for a Number whose
    type is none of the eleven types number.go names, so never for a
    Number as the setters leave it.  The case of MarshalJSON for
    InvalidType is never taken: the zero Number is written by the
    integer case, as the integer 0. *)
Theorem String_panics_only_on_unnamed_types :
  forall n,
    (String n = None <-> exists code, typ n = OtherType code)
    /\ (MarshalJSON n = None <-> exists code, typ n = OtherType code)
    /\ (fromSetter n -> String n <> None /\ MarshalJSON n <> None)
    /\ (typ n = InvalidType ->
        String n = Some "0"%string
        /\ MarshalJSON n = Some (AppendInt [] (int64 (bits n)), None)).
Proof.
  intros [b t]. unfold Number.String, Number.MarshalJSON, Type', fromSetter.
  cbn [typ bits]. split; [|split; [|split]].
  - destruct t; split; try discriminate; try (intros [c Hc]; discriminate).
    + intros _. now exists code.
    + reflexivity.
  - destruct t; split; try discriminate; try (intros [c Hc]; discriminate).
    + intros _. now exists code.
    + reflexivity.
  - intros [_ Ht]. destruct t; try contradiction; split; discriminate.
  - intros ->. split; reflexivity.
Qed.

(** X20.  When UnmarshalMsg returns an error it returns the bytes it
    was given and leaves the Number as it was; for an encoded type it
    has no case for, the error is the TypeError with the method
    Int64Type and that type.  When it returns no error, the Number
    has the type the setters store for the encoded type: Int64Type for
    the four signed types (or the zero Number for the integer 0),
    Uint64Type for the four unsigned types, and the float type
    itself. *)
Theorem UnmarshalMsg_error_leaves_number :
  forall n b n' o,
    (forall err, UnmarshalMsg n b = (n', o, Some err) -> n' = n /\ o = b)
    /\ (stored (NextType b) = None ->
        UnmarshalMsg n b = (n, b, Some (TypeError Int64Type (NextType b))))
    /\ (UnmarshalMsg n b = (n', o, None) ->
        stored (NextType b) = Some (Type' n')).
Proof.
  intros n b n' o. unfold Number.UnmarshalMsg. split; [|split].
  - intros err H.
    destruct (NextType b);
      try (injection H as <- <- _; now split);
      [destruct (ReadFloat32Bytes b) as [[f o'] [e|]]
      |destruct (ReadFloat64Bytes b) as [[f o'] [e|]]
      |destruct (ReadInt64Bytes b) as [[i o'] [e|]]
      |destruct (ReadInt64Bytes b) as [[i o'] [e|]]
      |destruct (ReadInt64Bytes b) as [[i o'] [e|]]
      |destruct (ReadInt64Bytes b) as [[i o'] [e|]]
      |destruct (ReadUint64Bytes b) as [[u o'] [e|]]
      |destruct (ReadUint64Bytes b) as [[u o'] [e|]]
      |destruct (ReadUint64Bytes b) as [[u o'] [e|]]
      |destruct (ReadUint64Bytes b) as [[u o'] [e|]]];
      try discriminate; injection H as <- <- _; now split.
  - destruct (NextType b); cbn [stored]; try discriminate; reflexivity.
  - intro H.
    destruct (NextType b); cbn [stored]; try discriminate;
      [destruct (ReadFloat32Bytes b) as [[f o'] [e|]]
      |destruct (ReadFloat64Bytes b) as [[f o'] [e|]]
      |destruct (ReadInt64Bytes b) as [[i o'] [e|]]
      |destruct (ReadInt64Bytes b) as [[i o'] [e|]]
      |destruct (ReadInt64Bytes b) as [[i o'] [e|]]
      |destruct (ReadInt64Bytes b) as [[i o'] [e|]]
      |destruct (ReadUint64Bytes b) as [[u o'] [e|]]
      |destruct (ReadUint64Bytes b) as [[u o'] [e|]]
      |destruct (ReadUint64Bytes b) as [[u o'] [e|]]
      |destruct (ReadUint64Bytes b) as [[u o'] [e|]]];
      try discriminate; injection H as <- _;
      try reflexivity; unfold AsInt; now destruct (i =? 0).
Qed.

End NumberMethods.

Lemma one_underlying_type_witness :
  In (Number.Type' (Number.AsUint Number.zeroNumber 3%Z))
     [Number.Int64Type; Number.Uint64Type; Number.Float32Type;
      Number.Float64Type].
Proof.
  destruct (one_underlying_type Z Z exBits exBits exBits 0%Z
              (Number.AsUint Number.zeroNumber 3%Z)) as (_ & _ & _ & Hset).
  apply Hset. split; [unfold Number.isUint64; cbn; lia|exact I].
Defined.

Lemma MarshalMsg_after_setter_witness :
  Number.MarshalMsg Z Z exBits exBits exAppend exAppend exAppend exAppend
    (Number.AsInt Number.zeroNumber (-1)%Z) []
  = (exAppend [] (-1)%Z, None).
Proof.
  destruct (MarshalMsg_after_setter Z Z exBits exBits exBits exBits
              exAppend exAppend exAppend exAppend Number.zeroNumber [])
    as (Hint & _).
  apply Hint. unfold Number.isInt64. lia.
Defined.

Lemma AsFloat_then_Float_witness :
  Number.Float Z Z exBits exBits exBits 0%Z
    (Number.AsFloat32 Z exBits Number.zeroNumber 5%Z)
  = (5%Z, true).
Proof.
  destruct (AsFloat_then_Float Z Z exBits exBits exBits exBits exBits 0%Z
              Number.zeroNumber) as (_ & H32 & _).
  apply H32; [unfold Number.isUint32, exBits; lia|reflexivity].
Defined.

Lemma String_panics_only_on_unnamed_types_witness :
  Number.String Z Z exBits exBits exBits 0%Z exFormat exFormat exFormat
    (Number.AsInt Number.zeroNumber 4%Z) <> None.
Proof.
  destruct (String_panics_only_on_unnamed_types Z Z exBits exBits exBits 0%Z
              exFormat exFormat exFormat exAppend exAppend exAppend
              (Number.AsInt Number.zeroNumber 4%Z)) as (_ & _ & Hset & _).
  apply Hset. split; [unfold Number.isUint64; cbn; lia|cbn; lia].
Defined.

Lemma UnmarshalMsg_error_leaves_number_witness :
  Number.UnmarshalMsg Z Z exBits exBits exNextType exRead exRead exRead exRead
    (Number.AsUint Number.zeroNumber 3%Z) []
  = (Number.AsUint Number.zeroNumber 3%Z, [],
     Some (Number.TypeError Number.Int64Type (Number.OtherType 0)))
  /\ Number.stored (exNextType [x01])
     = Some (Number.Type' (Number.AsInt Number.zeroNumber 7%Z)).
Proof.
  split.
  - destruct (UnmarshalMsg_error_leaves_number Z Z exBits exBits exNextType
                exRead exRead exRead exRead
                (Number.AsUint Number.zeroNumber 3%Z) []
                Number.zeroNumber []) as (_ & Hnone & _).
    apply Hnone. reflexivity.
  - destruct (UnmarshalMsg_error_leaves_number Z Z exBits exBits exNextType
                exRead exRead exRead exRead
                Number.zeroNumber [x01]
                (Number.AsInt Number.zeroNumber 7%Z) []) as (_ & _ & Hok).
    apply Hok. reflexivity.
Defined.

(** * Several names for one type, on the types the builder builds *)



